(** * CacheLab: a bucketed key-value store with write-through persistence

    A shallow embedding of the storage engine (StringUtils, HashFunction,
    BucketManager, DiskPersistence, HashMapStore) and the proofs of its
    specified properties.

    Conventions of the embedding.
    - A JavaScript string is the list of its UTF-16 code units ([jsstring]);
      [charCodeAt] and indexing read one element.
    - A JavaScript [number] that only ever holds an integer is a [Z]; the
      32-bit conversions of the bit operators are written out.
    - An uncaught [TypeError] (reading a property of [undefined]) is the
      [TypeError] outcome of the [outcome] monad.
    - The file system is the one file the store owns: the text last
      written to it and a count of the writes.  I/O itself succeeds; the
      file holds the UTF-8 encoding of the text, so that reading gives the
      text back with every unpaired surrogate replaced by U+FFFD.
    - A plain object [{}] used as a dictionary is the finite map of its own
      properties; assigning the name [__proto__] creates no property, and
      reading it gives [Object.prototype]. *)

From Stdlib Require Import ZArith Lia String Ascii.
From stdpp Require Import base option list gmap.

Local Open Scope Z_scope.

(** ** JavaScript values and built-ins *)

Abbreviation jsstring := (list Z).

(** A literal: the code units of an ASCII string. *)
Definition str (s : string) : jsstring :=
  (λ a, Z.of_nat (nat_of_ascii a)) <$> list_ascii_of_string s.

Inductive outcome (A : Type) : Type :=
  | Done (a : A)
  | TypeError.
Arguments Done {A} a.
Arguments TypeError {A}.

#[global] Instance outcome_ret : MRet outcome := λ A a, Done a.
#[global] Instance outcome_bind : MBind outcome := λ A B f m,
  match m with
  | Done a => f a
  | TypeError => TypeError
  end.

(** [for (let i = 0; i < xs.length; i++) body(xs[i])] over a state that the
    body may abandon by throwing. *)
Definition for_each {S A : Type} (body : S → A → outcome S)
    (xs : list A) (s : S) : outcome S :=
  foldl (λ acc x, s ← acc; body s x) (Done s) xs.

(** What a [value] field can hold at run time: a string, or the object
    [Object.prototype], which is what reading [__proto__] off a plain
    object gives. *)
Inductive jsvalue : Type :=
  | VStr (s : jsstring)
  | VObjectPrototype.

#[global] Instance jsvalue_eq_dec : EqDecision jsvalue.
Proof. solve_decision. Defined.

#[global] Instance jsvalue_inhabited : Inhabited jsvalue := populate (VStr []).

Module JS.

Definition COLON : Z := 58.
Definition NEWLINE : Z := 10.
Definition BACKSLASH : Z := 92.
Definition LOWER_N : Z := 110.

(** [arr[i]]: [None] is [undefined]. *)
Definition at_index {A : Type} (arr : list A) (i : Z) : option A :=
  if decide (0 ≤ i) then arr !! Z.to_nat i else None.

(** [ToInt32] of an integer. *)
Definition ToInt32 (z : Z) : Z := (z + 2 ^ 31) `mod` 2 ^ 32 - 2 ^ 31.

(** [a << n] for [0 <= n < 32]. *)
Definition shl (a n : Z) : Z := ToInt32 (Z.shiftl (ToInt32 a) n).

(** [a & b]. *)
Definition band (a b : Z) : Z := Z.land (ToInt32 a) (ToInt32 b).

(** The code units [String.prototype.trim] strips: WhiteSpace and
    LineTerminator of ECMAScript. *)
Definition is_whitespace (c : Z) : bool :=
  bool_decide (c ∈ [9; 10; 11; 12; 13; 32; 160; 5760; 8232; 8233; 8239; 8287;
                    12288; 65279])
  || bool_decide (8192 ≤ c ≤ 8202).

Fixpoint trimStart (s : jsstring) : jsstring :=
  match s with
  | [] => []
  | c :: rest => if is_whitespace c then trimStart rest else s
  end.

Definition trimEnd (s : jsstring) : jsstring := reverse (trimStart (reverse s)).

Definition trim (s : jsstring) : jsstring := trimStart (trimEnd s).

(** [lines.join(sep)]. *)
Fixpoint join (sep : jsstring) (lines : list jsstring) : jsstring :=
  match lines with
  | [] => []
  | [l] => l
  | l :: rest => l ++ sep ++ join sep rest
  end.

(** The name of the accessor every plain object inherits. *)
Definition PROTO : jsstring := str "__proto__".

(** [obj[name] = v] on a plain object: the own property [name] is made or
    overwritten.  The name [__proto__] is the exception: the inherited
    setter takes the assignment, ignores a string, and given
    [Object.prototype] sets the prototype to what it already is; no own
    property appears. *)
Definition obj_set (obj : gmap jsstring jsvalue) (name : jsstring) (v : jsvalue)
    : gmap jsstring jsvalue :=
  if decide (name = PROTO) then obj else <[name := v]> obj.

(** [obj[name]] for a name that was assigned, or the name [__proto__],
    which the inherited getter answers with [Object.prototype].  (A name
    that was never assigned is read off [Object.prototype] or is
    [undefined]; the store reads no such name, see [getAllKeys_own].) *)
Definition obj_get (obj : gmap jsstring jsvalue) (name : jsstring) : jsvalue :=
  if decide (name = PROTO) then VObjectPrototype else obj !!! name.

Definition REPLACEMENT : Z := 65533.

Definition is_high_surrogate (c : Z) : bool := bool_decide (55296 ≤ c ≤ 56319).
Definition is_low_surrogate (c : Z) : bool := bool_decide (56320 ≤ c ≤ 57343).

(** The text that decoding the UTF-8 encoding of [s] gives: a high
    surrogate followed by a low one is one character and is kept; any
    other surrogate has no encoding and comes back as U+FFFD
    ([String.prototype.toWellFormed]). *)
Fixpoint toWellFormed (s : jsstring) : jsstring :=
  match s with
  | [] => []
  | c :: rest =>
      if is_high_surrogate c then
        match rest with
        | d :: rest' =>
            if is_low_surrogate d then c :: d :: toWellFormed rest'
            else REPLACEMENT :: toWellFormed rest
        | [] => [REPLACEMENT]
        end
      else if is_low_surrogate c then REPLACEMENT :: toWellFormed rest
      else c :: toWellFormed rest
  end.

(** [s.substring(from)] and [s.substring(0, to)] for indices inside
    the string. *)
Definition substring_from (s : jsstring) (from : Z) : jsstring :=
  drop (Z.to_nat from) s.
Definition substring_to (s : jsstring) (to : Z) : jsstring :=
  take (Z.to_nat to) s.

End JS.

(** ** StringUtils *)

Module StringUtils.
Import JS.

(** The loop of [splitString]: [current] is the piece being read.  A
    character is compared with the whole delimiter, as the source does. *)
Fixpoint splitString_loop (str delimiter current : jsstring) : list jsstring :=
  match str with
  | [] => [current]
  | c :: rest =>
      if decide ([c] = delimiter)
      then current :: splitString_loop rest delimiter []
      else splitString_loop rest delimiter (current ++ [c])
  end.

Definition splitString (str delimiter : jsstring) : list jsstring :=
  splitString_loop str delimiter [].

(** [match] of the inner loop at the current position: [search] is read
    off the front of what is left of [str]. *)
Fixpoint matches_at (str search : jsstring) {struct search} : bool :=
  match search, str with
  | [], _ => true
  | _ :: _, [] => false
  | x :: search', c :: str' => bool_decide (c = x) && matches_at str' search'
  end.

(** The outer loop from position [i], with [str] the suffix at [i]; the
    loop bound [i <= str.length - search.length] is the length test. *)
Fixpoint indexOfString_from (str search : jsstring) (i : Z) : Z :=
  if bool_decide (length search ≤ length str)%nat && matches_at str search
  then i
  else match str with
       | [] => -1
       | _ :: rest => indexOfString_from rest search (i + 1)
       end.

Definition indexOfString (str search : jsstring) : Z :=
  indexOfString_from str search 0.

Definition escapeChar (char : Z) : jsstring :=
  if decide (char = COLON) then [COLON; COLON]
  else if decide (char = NEWLINE) then [BACKSLASH; LOWER_N]
  else if decide (char = BACKSLASH) then [BACKSLASH; BACKSLASH]
  else [char].

Definition escapeString (str : jsstring) : jsstring :=
  foldl (λ result char, result ++ escapeChar char) [] str.

(** [escapeString] handed a [value] field.  [Object.prototype] has no
    [length], so for it the loop does not run and the result is empty. *)
Definition escapeValue (v : jsvalue) : jsstring :=
  match v with
  | VStr str => escapeString str
  | VObjectPrototype => []
  end.

(** The loop of [unescapeString]; an [i++] inside the body skips the
    second character of a pair. *)
Fixpoint unescapeString (str : jsstring) : jsstring :=
  match str with
  | [] => []
  | c :: rest =>
      match rest with
      | [] => [c]
      | d :: rest' =>
          if decide (c = BACKSLASH) then
            if decide (d = LOWER_N) then NEWLINE :: unescapeString rest'
            else if decide (d = BACKSLASH) then BACKSLASH :: unescapeString rest'
            else c :: unescapeString rest
          else if decide (c = COLON ∧ d = COLON) then COLON :: unescapeString rest'
          else c :: unescapeString rest
      end
  end.

End StringUtils.

(** ** HashFunction *)

Module HashFunction.

Record t := { bucketCount : Z }.

Definition new (bucketCount : Z) : t := {| bucketCount := bucketCount |}.

(** One turn of the loop: [hash = ((hash << 5) - hash) + char] and then
    [hash = hash & hash].  The subtraction and the addition are exact,
    their operands being below [2^33] in size. *)
Definition hash_step (hash char : Z) : Z :=
  let hash := (JS.shl hash 5 - hash) + char in
  JS.band hash hash.

(** [Math.abs(hash) % this.bucketCount]; [%] is the truncated remainder.
    A bucket count of zero, where the source yields [NaN], is outside the
    model. *)
Definition hash (this : t) (key : jsstring) : Z :=
  Z.rem (Z.abs (foldl hash_step 0 key)) (bucketCount this).

End HashFunction.

(** ** BucketManager *)

Record entry := Entry { key : jsstring; value : jsvalue }.

#[global] Instance entry_eq_dec : EqDecision entry.
Proof. solve_decision. Defined.

Module BucketManager.

(** Each bucket is an array of [{ key, value }] pairs. *)
Record t := { buckets : list (list entry); bucketCount : Z }.

(** The constructor and [initializeBuckets]. *)
Definition new (bucketCount : Z) : t :=
  {| buckets := replicate (Z.to_nat bucketCount) [];
     bucketCount := bucketCount |}.

(** The loops over one bucket.  [bucket[i].value = value] keeps the
    entry and its key; [bucket[bucket.length] = { key, value }] appends. *)
Fixpoint set_loop (bucket : list entry) (k : jsstring) (v : jsvalue) : list entry :=
  match bucket with
  | [] => [Entry k v]
  | e :: rest =>
      if decide (key e = k) then Entry (key e) v :: rest
      else e :: set_loop rest k v
  end.

Fixpoint get_loop (bucket : list entry) (k : jsstring) : option jsvalue :=
  match bucket with
  | [] => None
  | e :: rest => if decide (key e = k) then Some (value e) else get_loop rest k
  end.

(** Shifting the tail down by one and cutting the length removes the
    entry found; [None] when the loop ends without finding the key. *)
Fixpoint delete_loop (bucket : list entry) (k : jsstring) : option (list entry) :=
  match bucket with
  | [] => None
  | e :: rest =>
      if decide (key e = k) then Some rest
      else (e ::.) <$> delete_loop rest k
  end.

Fixpoint has_loop (bucket : list entry) (k : jsstring) : bool :=
  match bucket with
  | [] => false
  | e :: rest => if decide (key e = k) then true else has_loop rest k
  end.

(** The opening of every method that works on one bucket:
    [const bucket = this.buckets[bucketIndex]] followed by [bucket.length],
    which throws when the bucket is [undefined]. *)
Definition bucket_at (this : t) (index : Z) : outcome (list entry) :=
  match JS.at_index (buckets this) index with
  | Some bucket => Done bucket
  | None => TypeError
  end.

(** The bucket array is changed in place: the table holds the new one
    at the same index. *)
Definition setInBucket (this : t) (bucketIndex : Z) (k : jsstring) (v : jsvalue)
    : outcome t :=
  bucket ← bucket_at this bucketIndex;
  mret {| buckets := <[Z.to_nat bucketIndex := set_loop bucket k v]> (buckets this);
          bucketCount := bucketCount this |}.

(** [None] is [undefined]. *)
Definition getFromBucket (this : t) (bucketIndex : Z) (k : jsstring)
    : outcome (option jsvalue) :=
  bucket ← bucket_at this bucketIndex;
  mret (get_loop bucket k).

Definition deleteFromBucket (this : t) (bucketIndex : Z) (k : jsstring)
    : outcome (bool * t) :=
  bucket ← bucket_at this bucketIndex;
  match delete_loop bucket k with
  | Some bucket' =>
      mret (true, {| buckets := <[Z.to_nat bucketIndex := bucket']> (buckets this);
                     bucketCount := bucketCount this |})
  | None => mret (false, this)
  end.

Definition hasInBucket (this : t) (bucketIndex : Z) (k : jsstring) : outcome bool :=
  bucket ← bucket_at this bucketIndex;
  mret (has_loop bucket k).

(** The two nested loops visit the entries bucket by bucket, each bucket
    in its own order. *)
Definition entries (this : t) : list entry := mjoin (buckets this).

Definition getAllKeys (this : t) : list jsstring := key <$> entries this.

(** The result is a plain object used as a dictionary, here its own
    properties: [result[key] = value] for every entry, a later assignment
    replacing an earlier one, and none taking effect for the key
    [__proto__]. *)
Definition getAll (this : t) : gmap jsstring jsvalue :=
  foldl (λ result e, JS.obj_set result (key e) (value e)) ∅ (entries this).

Definition getAllBuckets (this : t) : list (list entry) := buckets this.

(** [getBucket(index)]: the bucket, or [undefined] outside the array. *)
Definition getBucket (this : t) (index : Z) : option (list entry) :=
  JS.at_index (buckets this) index.

Definition getBucketCount (this : t) : Z := bucketCount this.

(** One element of the array [getBucketStructure] returns; [items] is a
    plain object used as a dictionary, here its own properties, as in
    [getAll]. *)
Record bucket_view := {
  bucketIndex : Z;
  items : gmap jsstring jsvalue;
  itemCount : Z
}.

(** The inner loop of [getBucketStructure]: [items[key] = value] and
    [itemCount++] for each entry of the bucket. *)
Definition view_loop (bucket : list entry) : gmap jsstring jsvalue * Z :=
  foldl (λ '(items, itemCount) e,
           (JS.obj_set items (key e) (value e), itemCount + 1))
        (∅, 0) bucket.

Definition getBucketStructure (this : t) : list bucket_view :=
  imap (λ i bucket,
          let '(items, itemCount) := view_loop bucket in
          {| bucketIndex := Z.of_nat i; items := items; itemCount := itemCount |})
       (buckets this).

End BucketManager.

(** ** DiskPersistence *)

Module DiskPersistence.
Import JS.

(** The file at [filePath], kept as the text it was written from: the
    text last handed to [writeFileSync], or for a file found at the start
    the text its bytes decode to ([None] when the file does not exist);
    and the number of [writeFileSync] calls made so far.  What is on the
    disk is the UTF-8 encoding of that text; [readFile] decodes it. *)
Record t := { file : option jsstring; writeCount : nat }.

Definition new (file : option jsstring) : t :=
  {| file := file; writeCount := 0 |}.

Definition line (e : entry) : jsstring :=
  StringUtils.escapeString (key e) ++ [COLON] ++ StringUtils.escapeValue (value e).

Definition lines (buckets : list (list entry)) : list jsstring :=
  line <$> mjoin buckets.

(** The text handed to [writeFileSync]. *)
Definition content (buckets : list (list entry)) : jsstring :=
  join [NEWLINE] (lines buckets).

Definition save (this : t) (buckets : list (list entry)) : t :=
  {| file := Some (content buckets); writeCount := S (writeCount this) |}.

(** The body of the loop of [load] for one element of [lines]: the
    entry it adds to [result], if any. *)
Definition load_line (raw : jsstring) : option entry :=
  let line := trim raw in
  if decide (line = []) then None
  else
    let colonIndex := StringUtils.indexOfString line [COLON] in
    if decide (0 < colonIndex)
    then Some (Entry (StringUtils.unescapeString (substring_to line colonIndex))
                     (VStr (StringUtils.unescapeString
                              (substring_from line (colonIndex + 1)))))
    else None.

Definition parse (content : jsstring) : list entry :=
  omap load_line (StringUtils.splitString content [NEWLINE]).

(** [readFileSync(this.filePath, 'utf-8')]: the bytes of the file,
    decoded.  Encoding turns a surrogate without its partner into the
    bytes of U+FFFD, so the text read is the text written with every such
    surrogate replaced. *)
Definition readFile (this : t) : option jsstring := toWellFormed <$> file this.

Definition load (this : t) : list entry :=
  match readFile this with
  | Some content => parse content
  | None => []
  end.

End DiskPersistence.

(** ** HashMapStore *)

Module HashMapStore.

Record t := {
  hashFunction : HashFunction.t;
  bucketManager : BucketManager.t;
  diskPersistence : DiskPersistence.t;
  bucketCount : Z
}.

(** [getLoadFactor() > loadFactorThreshold], that is
    [totalItems / bucketCount > 0.75].  The operands are integers, the
    bucket count is positive and 0.75 is a binary fraction, so the
    floating-point test is the exact comparison
    [4 * totalItems > 3 * bucketCount]. *)
Definition shouldResize (this : t) : bool :=
  let totalItems := Z.of_nat (length (BucketManager.getAllKeys (bucketManager this))) in
  bool_decide (3 * bucketCount this < 4 * totalItems).

Definition setWithoutSave (this : t) (k : jsstring) (v : jsvalue) : outcome t :=
  let bucketIndex := HashFunction.hash (hashFunction this) k in
  bm ← BucketManager.setInBucket (bucketManager this) bucketIndex k v;
  mret {| hashFunction := hashFunction this; bucketManager := bm;
          diskPersistence := diskPersistence this; bucketCount := bucketCount this |}.

(** Every key of [allKeys] was assigned in [allData], so [allData[key]]
    is the value assigned last; but for the key [__proto__] the assignment
    made no property, and [allData[key]] is [Object.prototype], which is
    what goes back into the table. *)
Definition resize (this : t) : outcome t :=
  let allData := BucketManager.getAll (bucketManager this) in
  let allKeys := BucketManager.getAllKeys (bucketManager this) in
  let bucketCount' := bucketCount this * 2 in
  let this' := {| hashFunction := HashFunction.new bucketCount';
                  bucketManager := BucketManager.new bucketCount';
                  diskPersistence := diskPersistence this;
                  bucketCount := bucketCount' |} in
  for_each (λ this k, setWithoutSave this k (JS.obj_get allData k)) allKeys this'.

Definition saveToDisk (this : t) : t :=
  let buckets := BucketManager.getAllBuckets (bucketManager this) in
  {| hashFunction := hashFunction this; bucketManager := bucketManager this;
     diskPersistence := DiskPersistence.save (diskPersistence this) buckets;
     bucketCount := bucketCount this |}.

Definition loadFromDisk (this : t) : outcome t :=
  let data := DiskPersistence.load (diskPersistence this) in
  for_each (λ this e, setWithoutSave this (key e) (value e)) data this.

(** The constructor, on the file found at [filePath]. *)
Definition new (disk : DiskPersistence.t) : outcome t :=
  loadFromDisk {| hashFunction := HashFunction.new 16;
                  bucketManager := BucketManager.new 16;
                  diskPersistence := disk;
                  bucketCount := 16 |}.

Definition has (this : t) (k : jsstring) : outcome bool :=
  let bucketIndex := HashFunction.hash (hashFunction this) k in
  BucketManager.hasInBucket (bucketManager this) bucketIndex k.

Definition set (this : t) (k v : jsstring) : outcome t :=
  exists_ ← has this k;
  this ← setWithoutSave this k (VStr v);
  this ← (if negb exists_ && shouldResize this then resize this else mret this);
  mret (saveToDisk this).

Definition get (this : t) (k : jsstring) : outcome (option jsvalue) :=
  let bucketIndex := HashFunction.hash (hashFunction this) k in
  BucketManager.getFromBucket (bucketManager this) bucketIndex k.

Definition update (this : t) (k v : jsstring) : outcome (bool * t) :=
  let bucketIndex := HashFunction.hash (hashFunction this) k in
  found ← BucketManager.hasInBucket (bucketManager this) bucketIndex k;
  if found : bool then
    bm ← BucketManager.setInBucket (bucketManager this) bucketIndex k (VStr v);
    mret (true, saveToDisk {| hashFunction := hashFunction this; bucketManager := bm;
                              diskPersistence := diskPersistence this;
                              bucketCount := bucketCount this |})
  else mret (false, this).

Definition delete (this : t) (k : jsstring) : outcome (bool * t) :=
  let bucketIndex := HashFunction.hash (hashFunction this) k in
  '(deleted, bm) ← BucketManager.deleteFromBucket (bucketManager this) bucketIndex k;
  if deleted : bool then
    mret (true, saveToDisk {| hashFunction := hashFunction this; bucketManager := bm;
                              diskPersistence := diskPersistence this;
                              bucketCount := bucketCount this |})
  else mret (false, this).

Definition getAllKeys (this : t) : list jsstring :=
  BucketManager.getAllKeys (bucketManager this).

Definition getBucketForKey (this : t) (k : jsstring) : Z :=
  HashFunction.hash (hashFunction this) k.

(** [set] called once for each value of [vs], in order, on the same key. *)
Definition set_repeatedly (this : t) (k : jsstring) (vs : list jsstring) : outcome t :=
  for_each (λ this v, set this k v) vs this.

Definition getAll (this : t) : gmap jsstring jsvalue :=
  BucketManager.getAll (bucketManager this).

(** The answer of [visualizeBuckets]; the keys of [hashDistribution] are
    bucket indices. *)
Record visualization := {
  totalBuckets : Z;
  totalItems : Z;
  structure : list BucketManager.bucket_view;
  hashDistribution : gmap Z Z
}.

Definition visualizeBuckets (this : t) : visualization :=
  let structure := BucketManager.getBucketStructure (bucketManager this) in
  let '(hashDistribution, totalItems) :=
    foldl (λ '(hashDistribution, totalItems) bucket,
             (<[BucketManager.bucketIndex bucket := BucketManager.itemCount bucket]>
                hashDistribution,
              totalItems + BucketManager.itemCount bucket))
          (∅, 0) structure in
  {| totalBuckets := bucketCount this;
     totalItems := totalItems;
     structure := structure;
     hashDistribution := hashDistribution |}.

(** The comparison loop of [getKeysByPrefix], entered when the key is at
    least as long as the prefix: [false] at the first [key[j] !== prefix[j]]. *)
Fixpoint prefix_loop (k prefix : jsstring) {struct prefix} : bool :=
  match prefix, k with
  | [], _ => true
  | _ :: _, [] => false
  | p :: prefix', c :: k' => if decide (c = p) then prefix_loop k' prefix' else false
  end.

Definition matches_prefix (k prefix : jsstring) : bool :=
  if decide (length k < length prefix)%nat then false else prefix_loop k prefix.

Definition getKeysByPrefix (this : t) (prefix : jsstring) : list jsstring :=
  let allKeys := BucketManager.getAllKeys (bucketManager this) in
  foldl (λ matchingKeys k,
           if matches_prefix k prefix then matchingKeys ++ [k] else matchingKeys)
        [] allKeys.

Definition UNDERSCORE : Z := 95.

(** [x || ""] for what [get] returns: [undefined] and the empty string
    are falsy, a string that is not empty and an object are not. *)
Definition or_empty (x : option jsvalue) : jsvalue :=
  match x with
  | Some (VStr (c :: rest)) => VStr (c :: rest)
  | Some (VStr []) => VStr []
  | Some VObjectPrototype => VObjectPrototype
  | None => VStr []
  end.

(** The result is a plain object used as a dictionary, here its own
    properties: [data[field] = ...] makes no property for the field
    [__proto__]. *)
Definition getUserData (this : t) (userPrefix : jsstring)
    : outcome (gmap jsstring jsvalue) :=
  let keys := getKeysByPrefix this (userPrefix ++ [UNDERSCORE]) in
  for_each (λ data fullKey,
              let prefixLength := Z.of_nat (length userPrefix) + 1 in
              let field := JS.substring_from fullKey prefixLength in
              x ← get this fullKey;
              mret (JS.obj_set data field (or_empty x)))
           keys ∅.

End HashMapStore.

(** ** KeysController *)

(** The handlers for one key.  A route parameter is a string.  A field of
    the JSON body is modelled when it is a string or is absent ([None] is
    [undefined]), so that [String(value)] is the value itself.  A handler
    answers with a status and a JSON object, and leaves a store behind; when
    the store throws, the [catch] answers 500 and the state the store was
    left in is not followed ([TypeError]). *)
Module KeysController.

Inductive json : Type :=
  | ErrorBody (error : string)
  | KeyValueBody (k : jsstring) (v : jsvalue)
  | MessageKeyValueBody (message : string) (k v : jsstring)
  | MessageKeyBody (message : string) (k : jsstring).

Record response := { status : Z; body : json }.

(** [res.json(...)] without [res.status(...)] answers 200. *)
Definition ok (body : json) : response := {| status := 200; body := body |}.

Definition internal_error : response :=
  {| status := 500; body := ErrorBody "Internal server error" |}.

(** [try { ... } catch (error) { res.status(500).json(...) }]. *)
Definition try_catch (run : outcome (response * HashMapStore.t))
    : response * outcome HashMapStore.t :=
  match run with
  | Done (res, store) => (res, Done store)
  | TypeError => (internal_error, TypeError)
  end.

(** [!key] for a string or [undefined]. *)
Definition falsy (x : option jsstring) : bool :=
  match x with
  | Some (_ :: _) => false
  | Some [] => true
  | None => true
  end.

(** [POST /keys] with the fields [key] and [value] of the body. *)
Definition create (store : HashMapStore.t) (k v : option jsstring)
    : response * outcome HashMapStore.t :=
  try_catch
    (match k, v with
     | Some k', Some v' =>
         if falsy k then
           mret ({| status := 400; body := ErrorBody "Both key and value are required" |},
                 store)
         else
           exists_ ← HashMapStore.has store k';
           if exists_ : bool then
             mret ({| status := 409;
                      body := ErrorBody "Key already exists. Use PUT to update." |},
                   store)
           else
             store' ← HashMapStore.set store k' v';
             mret ({| status := 201;
                      body := MessageKeyValueBody "Key created successfully" k' v' |},
                   store')
     | _, _ =>
         mret ({| status := 400; body := ErrorBody "Both key and value are required" |},
               store)
     end).

(** [GET /keys/:key]. *)
Definition get (store : HashMapStore.t) (k : jsstring)
    : response * outcome HashMapStore.t :=
  try_catch
    (value ← HashMapStore.get store k;
     match value with
     | None => mret ({| status := 404; body := ErrorBody "Key not found" |}, store)
     | Some v => mret (ok (KeyValueBody k v), store)
     end).

(** [PUT /keys/:key] with the field [value] of the body. *)
Definition update (store : HashMapStore.t) (k : jsstring) (v : option jsstring)
    : response * outcome HashMapStore.t :=
  try_catch
    (match v with
     | None => mret ({| status := 400; body := ErrorBody "Value is required" |}, store)
     | Some v' =>
         '(updated, store') ← HashMapStore.update store k v';
         if updated : bool
         then mret (ok (MessageKeyValueBody "Key updated successfully" k v'), store')
         else mret ({| status := 404; body := ErrorBody "Key not found" |}, store')
     end).

(** [DELETE /keys/:key]. *)
Definition delete (store : HashMapStore.t) (k : jsstring)
    : response * outcome HashMapStore.t :=
  try_catch
    ('(deleted, store') ← HashMapStore.delete store k;
     if deleted : bool
     then mret (ok (MessageKeyBody "Key deleted successfully" k), store')
     else mret ({| status := 404; body := ErrorBody "Key not found" |}, store')).

End KeysController.

(** The accumulation in the words of the specification: multiply by 31
    and add the character code, in wrap-around 32-bit signed arithmetic;
    then the absolute value, reduced modulo the bucket count. *)
Definition hash_by_31 (bucketCount : Z) (k : jsstring) : Z :=
  (Z.abs (foldl (λ acc c, JS.ToInt32 (acc * 31 + c)) 0 k)) `mod` bucketCount.

(** ** Entries that survive the file format *)

(** White space that reaches a line of the file as itself: a newline is
    written as an escape sequence and so is not of this kind. *)
Definition stripped (c : Z) : bool :=
  JS.is_whitespace c && negb (bool_decide (c = JS.NEWLINE)).

(** A text that the file gives back as it is: it has no unpaired
    surrogate. *)
Definition well_formed_text (s : jsstring) : Prop := JS.toWellFormed s = s.

(** A value that [load] reads back as it was saved: a string that does
    not end with white space and has no unpaired surrogate. *)
Definition storable_value (v : jsvalue) : Prop :=
  match v with
  | VStr s => from_option stripped false (last s) = false ∧ well_formed_text s
  | VObjectPrototype => False
  end.

(** An entry that [load] reads back as it was saved: the key is not empty,
    holds no colon, does not begin with white space and has no unpaired
    surrogate, and the value is storable. *)
Definition storable (e : entry) : Prop :=
  key e ≠ [] ∧ (JS.COLON ∉ key e)
  ∧ from_option stripped false (head (key e)) = false
  ∧ well_formed_text (key e)
  ∧ storable_value (value e).

#[global] Instance storable_value_dec v : Decision (storable_value v).
Proof. destruct v; unfold storable_value, well_formed_text; apply _. Defined.

#[global] Instance storable_dec e : Decision (storable e).
Proof. unfold storable, well_formed_text. apply _. Defined.

(** ** The invariants of the store *)

(** The three copies of the bucket count agree with each other and with
    the length of the bucket array, and there is at least one bucket. *)
Definition in_sync (s : HashMapStore.t) : Prop :=
  0 < HashMapStore.bucketCount s
  ∧ HashFunction.bucketCount (HashMapStore.hashFunction s) = HashMapStore.bucketCount s
  ∧ BucketManager.bucketCount (HashMapStore.bucketManager s) = HashMapStore.bucketCount s
  ∧ Z.of_nat (length (BucketManager.buckets (HashMapStore.bucketManager s)))
    = HashMapStore.bucketCount s.

(** Bucket [i] holds no key twice, and only keys that hash to [i]. *)
Definition bucket_ok (hf : HashFunction.t) (i : nat) (bucket : list entry) : Prop :=
  NoDup (key <$> bucket)
  ∧ Forall (λ e, HashFunction.hash hf (key e) = Z.of_nat i) bucket.

Definition placed (s : HashMapStore.t) : Prop :=
  ∀ i bucket,
    BucketManager.buckets (HashMapStore.bucketManager s) !! i = Some bucket →
    bucket_ok (HashMapStore.hashFunction s) i bucket.

Definition well_formed (s : HashMapStore.t) : Prop := in_sync s ∧ placed s.

(** Key [k] occurs in the bucket at index [i]. *)
Definition key_in_bucket (s : HashMapStore.t) (k : jsstring) (i : nat) : Prop :=
  ∃ bucket,
    BucketManager.buckets (HashMapStore.bucketManager s) !! i = Some bucket
    ∧ k ∈ key <$> bucket.

(** The entry after [k] has been given the value [v]: only the entry of
    [k] changes. *)
Definition overwrite (k v : jsstring) (e : entry) : entry :=
  if decide (key e = k) then Entry (key e) (VStr v) else e.

(** The bucket array after [k] has been given the value [v] wherever it
    occurs: nothing moves, and no other entry changes. *)
Definition overwrite_table (k v : jsstring) (bs : list (list entry)) : list (list entry) :=
  (λ bucket : list entry, overwrite k v <$> bucket) <$> bs.

(** The store with its bucket array replaced by [bs]. *)
Definition with_buckets (s : HashMapStore.t) (bs : list (list entry)) : HashMapStore.t :=
  {| HashMapStore.hashFunction := HashMapStore.hashFunction s;
     HashMapStore.bucketManager :=
       {| BucketManager.buckets := bs;
          BucketManager.bucketCount :=
            BucketManager.bucketCount (HashMapStore.bucketManager s) |};
     HashMapStore.diskPersistence := HashMapStore.diskPersistence s;
     HashMapStore.bucketCount := HashMapStore.bucketCount s |}.

#[global] Instance in_sync_dec s : Decision (in_sync s).
Proof. unfold in_sync. apply _. Defined.

#[global] Instance bucket_ok_dec hf i bucket : Decision (bucket_ok hf i bucket).
Proof. unfold bucket_ok. apply _. Defined.

#[global] Instance placed_dec s : Decision (placed s).
Proof.
  refine (cast_if (decide (Forall (λ ib, bucket_ok (HashMapStore.hashFunction s) ib.1 ib.2)
    (imap pair (BucketManager.buckets (HashMapStore.bucketManager s))))));
    unfold placed; rewrite Forall_lookup in *.
  - intros i bucket Hi. apply (f i (i, bucket)).
    by rewrite list_lookup_imap, Hi.
  - intros H. apply n. intros i [j bucket]. rewrite list_lookup_imap.
    destruct (_ !! i) as [b|] eqn:Hi; [|done]. intros [= <- <-]. by apply H.
Defined.

#[global] Instance well_formed_dec s : Decision (well_formed s).
Proof. unfold well_formed. apply _. Defined.

(** The stores a program can hold: one made by the constructor from
    whatever file is on disk, then changed by the public operations. *)
Inductive reachable : HashMapStore.t → Prop :=
  | reach_new disk s :
      HashMapStore.new disk = Done s → reachable s
  | reach_set s k v s' :
      reachable s → HashMapStore.set s k v = Done s' → reachable s'
  | reach_update s k v updated s' :
      reachable s → HashMapStore.update s k v = Done (updated, s') → reachable s'
  | reach_delete s k deleted s' :
      reachable s → HashMapStore.delete s k = Done (deleted, s') → reachable s'.

(** ** Sample stores *)

(** A store started with no file on disk. *)
Definition empty_store : HashMapStore.t :=
  {| HashMapStore.hashFunction := HashFunction.new 16;
     HashMapStore.bucketManager := BucketManager.new 16;
     HashMapStore.diskPersistence := DiskPersistence.new None;
     HashMapStore.bucketCount := 16 |}.

Definition run_or {A : Type} (fallback : A) (o : outcome A) : A :=
  match o with
  | Done a => a
  | TypeError => fallback
  end.

(** The store after [set("name","John")] and [set("age","25")]. *)
Definition sample_store : HashMapStore.t :=
  Eval vm_compute in
    run_or empty_store
      (s ← HashMapStore.set empty_store (str "name") (str "John");
       HashMapStore.set s (str "age") (str "25")).

(** Twelve keys in sixteen buckets: a load factor of exactly 0.75. *)
Definition crowded_store : HashMapStore.t :=
  Eval vm_compute in
    run_or empty_store
      (for_each (λ s k, HashMapStore.set s k (str "x"))
         (str <$> ["a"; "b"; "c"; "d"; "e"; "f"; "g"; "h"; "i"; "j"; "k"; "l"]%string)
         empty_store).

(** The value of the last entry of [es] that has the key [k], if any. *)
Definition last_value (es : list entry) (k : jsstring) : option jsvalue :=
  value <$> last (filter (λ e, key e = k) es).

(** The store after [set("user1_name","A")] and [set("user1_phone","B")]
    and [set("user10_name","C")]. *)
Definition users_store : HashMapStore.t :=
  Eval vm_compute in
    run_or empty_store
      (s ← HashMapStore.set empty_store (str "user1_name") (str "A");
       s ← HashMapStore.set s (str "user1_phone") (str "B");
       HashMapStore.set s (str "user10_name") (str "C")).

(** Twelve keys in sixteen buckets, one of them [__proto__]. *)
Definition proto_store : HashMapStore.t :=
  Eval vm_compute in
    run_or empty_store
      (for_each (λ s k, HashMapStore.set s k (str "x"))
         (str <$> ["__proto__"; "b"; "c"; "d"; "e"; "f"; "g"; "h"; "i"; "j"; "k";
                   "l"]%string)
         empty_store).

(** What [get] gives for [k], when it does not throw. *)
(** What [set s k w], with result [s'], leaves to be read at [k']. A
    write that made the table grow went through [resize], which reads
    the key ["__proto__"] back from the plain object as
    [Object.prototype]. *)
Definition after_set (s : HashMapStore.t) (k w : jsstring) (s' : HashMapStore.t)
    (k' : jsstring) : outcome (option jsvalue) :=
  if decide (k' = JS.PROTO
             ∧ HashMapStore.bucketCount s' ≠ HashMapStore.bucketCount s
             ∧ k' ∈ k :: HashMapStore.getAllKeys s)
  then Done (Some VObjectPrototype)
  else if decide (k' = k) then Done (Some (VStr w)) else HashMapStore.get s k'.

Definition stored (s : HashMapStore.t) (k : jsstring) : option jsvalue :=
  match HashMapStore.get s k with
  | Done x => x
  | TypeError => None
  end.

(** * Properties *)

(** ** The escaping codec *)

(** Membership in a list written out, decided on the character codes. *)
Ltac literal_members :=
  unfold JS.NEWLINE, JS.COLON, JS.BACKSLASH, JS.LOWER_N in *;
  rewrite ?elem_of_cons, ?elem_of_nil; intros; intuition (try lia; try congruence).

Section Codec.
Import JS StringUtils.

Lemma foldl_snoc_acc (f : Z → jsstring) (acc : jsstring) (s : jsstring) :
  foldl (λ result char, result ++ f char) acc s
  = acc ++ foldl (λ result char, result ++ f char) [] s.
Proof.
  revert acc. induction s as [|c s IH]; intros acc; simpl.
  - by rewrite app_nil_r.
  - rewrite (IH (acc ++ f c)), (IH (f c)). by rewrite app_assoc.
Qed.

Lemma escapeString_nil : escapeString [] = [].
Proof. reflexivity. Qed.

Lemma escapeString_cons c s :
  escapeString (c :: s) = escapeChar c ++ escapeString s.
Proof. unfold escapeString. simpl. apply foldl_snoc_acc. Qed.

Lemma escapeString_app s t :
  escapeString (s ++ t) = escapeString s ++ escapeString t.
Proof.
  induction s as [|c s IH]; [done|].
  simpl. rewrite !escapeString_cons, IH. by rewrite app_assoc.
Qed.

Lemma unescapeString_plain c rest :
  c ≠ BACKSLASH → c ≠ COLON →
  unescapeString (c :: rest) = c :: unescapeString rest.
Proof.
  intros Hb Hc. destruct rest as [|d rest']; [done|].
  simpl. destruct (decide (c = BACKSLASH)) as [|_]; [done|].
  by destruct (decide (c = COLON ∧ d = COLON)) as [[? _]|_].
Qed.

Lemma unescapeString_newline rest :
  unescapeString (BACKSLASH :: LOWER_N :: rest) = NEWLINE :: unescapeString rest.
Proof. reflexivity. Qed.

Lemma unescapeString_backslash rest :
  unescapeString (BACKSLASH :: BACKSLASH :: rest) = BACKSLASH :: unescapeString rest.
Proof. reflexivity. Qed.

Lemma unescapeString_colon rest :
  unescapeString (COLON :: COLON :: rest) = COLON :: unescapeString rest.
Proof. reflexivity. Qed.

(** Decoding runs through an encoded prefix token by token. *)
Lemma unescape_escape_app s t :
  unescapeString (escapeString s ++ t) = s ++ unescapeString t.
Proof.
  induction s as [|c s IH]; [done|].
  rewrite escapeString_cons. unfold escapeChar.
  destruct (decide (c = COLON)) as [->|?];
    [|destruct (decide (c = NEWLINE)) as [->|?];
      [|destruct (decide (c = BACKSLASH)) as [->|?]]];
    rewrite <- app_assoc.
  - cbn [app]. by rewrite unescapeString_colon, IH.
  - cbn [app]. by rewrite unescapeString_newline, IH.
  - cbn [app]. by rewrite unescapeString_backslash, IH.
  - cbn [app]. by rewrite unescapeString_plain, IH.
Qed.

Lemma unescape_escape s : unescapeString (escapeString s) = s.
Proof.
  rewrite <- (app_nil_r (escapeString s)), unescape_escape_app.
  by rewrite app_nil_r.
Qed.

Lemma escapeChar_no_newline c : NEWLINE ∉ escapeChar c.
Proof. unfold escapeChar. repeat case_decide; literal_members. Qed.

Lemma escapeString_no_newline s : NEWLINE ∉ escapeString s.
Proof.
  induction s as [|c s IH]; [apply not_elem_of_nil|].
  rewrite escapeString_cons, elem_of_app.
  intros [H|H]; [by apply escapeChar_no_newline in H|done].
Qed.

Lemma escapeString_no_colon s : COLON ∉ s → COLON ∉ escapeString s.
Proof.
  induction s as [|c s IH]; [done|].
  rewrite not_elem_of_cons. intros [Hc Hs].
  rewrite escapeString_cons, elem_of_app. intros [H|H]; [|by apply IH].
  revert H. unfold escapeChar. repeat case_decide; literal_members.
Qed.

Lemma escapeString_nonempty s : s ≠ [] → escapeString s ≠ [].
Proof.
  destruct s as [|c s]; [done|]. intros _. rewrite escapeString_cons.
  unfold escapeChar. by repeat case_decide.
Qed.

End Codec.

(** ** The hash function *)

Section Hash.
Import JS HashFunction.

Lemma ToInt32_range z : - 2 ^ 31 ≤ ToInt32 z < 2 ^ 31.
Proof. unfold ToInt32. pose proof (Z.mod_pos_bound (z + 2 ^ 31) (2 ^ 32)). lia. Qed.

Lemma ToInt32_small z : - 2 ^ 31 ≤ z < 2 ^ 31 → ToInt32 z = z.
Proof. intros H. unfold ToInt32. rewrite Z.mod_small; lia. Qed.

Lemma ToInt32_congruent a b : (a - b) `mod` 2 ^ 32 = 0 → ToInt32 a = ToInt32 b.
Proof.
  intros H. unfold ToInt32. f_equal.
  apply Z.mod_divide in H; [|lia]. destruct H as [q Hq].
  replace (a + 2 ^ 31) with (b + 2 ^ 31 + q * 2 ^ 32) by lia.
  apply Z.mod_add. lia.
Qed.

Lemma ToInt32_residue z : (ToInt32 z - z) `mod` 2 ^ 32 = 0.
Proof.
  unfold ToInt32. rewrite (Z.mod_eq (z + 2 ^ 31) (2 ^ 32)) by lia.
  replace (z + 2 ^ 31 - 2 ^ 32 * ((z + 2 ^ 31) `div` 2 ^ 32) - 2 ^ 31 - z)
    with (- ((z + 2 ^ 31) `div` 2 ^ 32) * 2 ^ 32) by lia.
  apply Z.mod_mul. lia.
Qed.

Lemma band_diag z : band z z = ToInt32 z.
Proof. unfold band. apply Z.land_diag. Qed.

(** The shift-and-subtract step is multiplication by 31 modulo [2^32]. *)
Lemma hash_step_31 h c :
  - 2 ^ 31 ≤ h < 2 ^ 31 → hash_step h c = ToInt32 (h * 31 + c).
Proof.
  intros Hh. unfold hash_step, shl. cbv zeta. rewrite band_diag.
  rewrite (ToInt32_small h Hh), Z.shiftl_mul_pow2 by lia.
  apply ToInt32_congruent.
  pose proof (ToInt32_residue (h * 2 ^ 5)) as Hr.
  apply Z.mod_divide in Hr; [|lia]. destruct Hr as [q Hq].
  replace (ToInt32 (h * 2 ^ 5) - h + c - (h * 31 + c)) with (q * 2 ^ 32) by lia.
  apply Z.mod_mul. lia.
Qed.

Lemma hash_step_range h c : - 2 ^ 31 ≤ hash_step h c < 2 ^ 31.
Proof. unfold hash_step. cbv zeta. rewrite band_diag. apply ToInt32_range. Qed.

Lemma hash_loop_31 k h :
  - 2 ^ 31 ≤ h < 2 ^ 31 →
  foldl hash_step h k = foldl (λ acc c, ToInt32 (acc * 31 + c)) h k.
Proof.
  revert h. induction k as [|c k IH]; intros h Hh; [done|].
  simpl. rewrite <- (hash_step_31 h c Hh). apply IH, hash_step_range.
Qed.

Lemma hash_is_hash_by_31 this k :
  0 < bucketCount this → hash this k = hash_by_31 (bucketCount this) k.
Proof.
  intros Hb. unfold hash, hash_by_31.
  rewrite hash_loop_31 by (cbv; split; [discriminate|done]).
  apply Z.rem_mod_nonneg; lia.
Qed.

Lemma hash_range this k :
  0 < bucketCount this → 0 ≤ hash this k < bucketCount this.
Proof. intros Hb. unfold hash. apply Z.rem_bound_pos; lia. Qed.

End Hash.

(** ** The file format *)

Section Persistence.
Import JS StringUtils DiskPersistence.

Lemma splitString_loop_run l t cur :
  NEWLINE ∉ l →
  splitString_loop (l ++ t) [NEWLINE] cur = splitString_loop t [NEWLINE] (cur ++ l).
Proof.
  revert cur. induction l as [|c l IH]; intros cur Hl; simpl.
  - by rewrite app_nil_r.
  - apply not_elem_of_cons in Hl as [Hc Hl].
    destruct (decide ([c] = [NEWLINE])) as [Heq|_]; [congruence|].
    rewrite IH by done. by rewrite <- app_assoc.
Qed.

Lemma splitString_loop_join ls l cur :
  Forall (λ l, NEWLINE ∉ l) (l :: ls) →
  splitString_loop (join [NEWLINE] (l :: ls)) [NEWLINE] cur = (cur ++ l) :: ls.
Proof.
  revert l cur. induction ls as [|l' ls IH]; intros l cur Hall.
  - apply Forall_cons in Hall as [Hl _]. cbn [join].
    rewrite <- (app_nil_r l) at 1. by rewrite splitString_loop_run.
  - apply Forall_cons in Hall as [Hl Hall].
    change (join [NEWLINE] (l :: l' :: ls))
      with (l ++ [NEWLINE] ++ join [NEWLINE] (l' :: ls)).
    rewrite splitString_loop_run by done. cbn [app splitString_loop].
    destruct (decide ([NEWLINE] = [NEWLINE])) as [_|]; [|done].
    by rewrite IH.
Qed.

Lemma splitString_join l ls :
  Forall (λ l, NEWLINE ∉ l) (l :: ls) →
  splitString (join [NEWLINE] (l :: ls)) [NEWLINE] = l :: ls.
Proof. intros H. unfold splitString. by rewrite splitString_loop_join. Qed.

Lemma trimStart_id s :
  from_option is_whitespace false (head s) = false → trimStart s = s.
Proof. destruct s as [|c s]; [done|]. simpl. by intros ->. Qed.

Lemma trim_id s :
  from_option is_whitespace false (head s) = false →
  from_option is_whitespace false (last s) = false →
  trim s = s.
Proof.
  intros Hh Hl. unfold trim, trimEnd.
  rewrite (trimStart_id (reverse s)) by (by rewrite head_reverse).
  rewrite reverse_involutive. by apply trimStart_id.
Qed.

Lemma indexOfString_from_colon l t i :
  COLON ∉ l →
  indexOfString_from (l ++ COLON :: t) [COLON] i = i + Z.of_nat (length l).
Proof.
  revert i. induction l as [|c l IH]; intros i Hl.
  - cbn [app indexOfString_from matches_at].
    rewrite (bool_decide_eq_true_2 (COLON = COLON)) by done.
    rewrite (bool_decide_eq_true_2 (_ ≤ _)%nat) by (simpl; lia).
    simpl. lia.
  - apply not_elem_of_cons in Hl as [Hc Hl].
    cbn [app indexOfString_from matches_at].
    rewrite (bool_decide_eq_false_2 (c = COLON)) by congruence.
    rewrite andb_false_l, andb_false_r, IH by done.
    rewrite length_cons. lia.
Qed.

Lemma indexOfString_from_ge s search i : indexOfString_from s search i = -1 ∨ i ≤ indexOfString_from s search i.
Proof.
  revert i. induction s as [|c s IH]; intros i; simpl.
  - destruct (_ && _); lia.
  - destruct (_ && _); [lia|]. destruct (IH (i + 1)); lia.
Qed.

(** A first colon at position 0 is a colon at the head of the string. *)
Lemma indexOfString_colon_0 s :
  indexOfString s [COLON] = 0 ↔ head s = Some COLON.
Proof.
  unfold indexOfString. destruct s as [|c s]; [split; [by cbv|done]|].
  cbn [indexOfString_from matches_at head].
  rewrite andb_true_r.
  rewrite (bool_decide_eq_true_2 (_ ≤ _)%nat) by (simpl; lia).
  rewrite andb_true_l.
  destruct (decide (c = COLON)) as [->|Hc].
  - by rewrite bool_decide_eq_true_2.
  - rewrite bool_decide_eq_false_2 by done.
    split; [|congruence]. destruct (indexOfString_from_ge s [COLON] (0 + 1)); lia.
Qed.

Lemma unescapeString_nonempty s : s ≠ [] → unescapeString s ≠ [].
Proof.
  destruct s as [|c [|d rest]]; [done|done|]. intros _. simpl.
  destruct (decide (c = BACKSLASH)) as [_|_].
  - destruct (decide (d = LOWER_N)) as [_|_]; [done|].
    by destruct (decide (d = BACKSLASH)) as [_|_].
  - by destruct (decide (c = COLON ∧ d = COLON)) as [_|_].
Qed.

Lemma stripped_false c :
  stripped c = false → c ≠ NEWLINE → is_whitespace c = false.
Proof.
  unfold stripped. intros H Hc.
  rewrite (bool_decide_eq_false_2 (c = NEWLINE)) in H by done.
  by rewrite andb_true_r in H.
Qed.

Lemma escapeValue_no_newline v : NEWLINE ∉ escapeValue v.
Proof. destruct v; [apply escapeString_no_newline|apply not_elem_of_nil]. Qed.

Lemma line_no_newline e : NEWLINE ∉ line e.
Proof.
  unfold line. rewrite !elem_of_app. intros [H|[H|H]].
  - by apply escapeString_no_newline in H.
  - revert H. literal_members.
  - by apply escapeValue_no_newline in H.
Qed.

Lemma line_head e :
  storable e → from_option is_whitespace false (head (line e)) = false.
Proof.
  intros (Hne & Hcolon & Hhead & _). unfold line.
  destruct (key e) as [|c k]; [done|]. clear Hne.
  apply not_elem_of_cons in Hcolon as [Hc _]. simpl in Hhead.
  rewrite escapeString_cons. unfold escapeChar.
  destruct (decide (c = COLON)) as [|_]; [done|].
  destruct (decide (c = NEWLINE)) as [|Hn]; [done|].
  destruct (decide (c = BACKSLASH)) as [|_]; [done|].
  simpl. by apply stripped_false.
Qed.

Lemma line_last e :
  storable e → from_option is_whitespace false (last (line e)) = false.
Proof.
  intros (_ & _ & _ & _ & Hv). unfold line.
  destruct (value e) as [v|]; [|done]. destruct Hv as [Hlast _].
  cbn [escapeValue]. destruct v as [|c v _] using rev_ind.
  - rewrite escapeString_nil, app_nil_r. by rewrite last_snoc.
  - rewrite last_snoc in Hlast. simpl in Hlast.
    rewrite escapeString_app, escapeString_cons, escapeString_nil, app_nil_r.
    unfold escapeChar.
    destruct (decide (c = COLON)) as [|_];
      [|destruct (decide (c = NEWLINE)) as [|Hn];
        [|destruct (decide (c = BACKSLASH)) as [|_]]].
    + change [COLON; COLON] with ([COLON] ++ [COLON]).
      by rewrite !app_assoc, last_snoc.
    + change [BACKSLASH; LOWER_N] with ([BACKSLASH] ++ [LOWER_N]).
      by rewrite !app_assoc, last_snoc.
    + change [BACKSLASH; BACKSLASH] with ([BACKSLASH] ++ [BACKSLASH]).
      by rewrite !app_assoc, last_snoc.
    + rewrite !app_assoc, last_snoc. simpl. by apply stripped_false.
Qed.

(** One line of a saved file decodes to the entry it was written from. *)
Lemma load_line_line e : storable e → load_line (line e) = Some e.
Proof.
  intros He. unfold load_line. cbv zeta.
  rewrite (trim_id (line e)) by auto using line_head, line_last.
  destruct He as (Hne & Hcolon & _ & _ & Hv).
  destruct e as [k [v|]]; [|done]. simpl in Hne, Hcolon.
  pose proof (escapeString_nonempty _ Hne) as Hne'.
  unfold line at 1 2. cbn [key value escapeValue].
  destruct (decide (_ = [])) as [Hnil|_].
  { by apply app_eq_nil in Hnil as [? _]. }
  unfold indexOfString, line. cbn [key value escapeValue].
  change ([COLON] ++ escapeString v) with (COLON :: escapeString v).
  rewrite indexOfString_from_colon by by apply escapeString_no_colon.
  destruct (decide (0 < 0 + Z.of_nat (length (escapeString k)))) as [_|Hlen].
  - unfold substring_to, substring_from.
    replace (Z.to_nat (0 + Z.of_nat (length (escapeString k))))
      with (length (escapeString k)) by lia.
    replace (Z.to_nat (0 + Z.of_nat (length (escapeString k)) + 1))
      with (S (length (escapeString k))) by lia.
    rewrite take_app_length.
    rewrite (cons_middle COLON), app_assoc.
    rewrite drop_app_length' by (rewrite length_app; simpl; lia).
    by rewrite !unescape_escape.
  - destruct (escapeString k); [done|]. simpl in Hlen. lia.
Qed.

Lemma omap_load_line_lines es :
  Forall storable es → omap load_line (line <$> es) = es.
Proof.
  induction 1 as [|e es He _ IH]; [done|].
  rewrite fmap_cons. change (omap load_line (line e :: (line <$> es)))
    with (match load_line (line e) with
          | Some y => y :: omap load_line (line <$> es)
          | None => omap load_line (line <$> es)
          end).
  by rewrite (load_line_line e He), IH.
Qed.

(** Induction two characters at a time, the way [unescapeString] reads. *)
Lemma pairwise_ind (P : jsstring → Prop) :
  P [] → (∀ c, P [c]) →
  (∀ c d rest, P rest → P (d :: rest) → P (c :: d :: rest)) →
  ∀ s, P s.
Proof.
  intros Hnil Hone Hstep s.
  assert (P s ∧ ∀ c, P (c :: s)) as [H _]; [|done].
  induction s as [|d s [IH1 IH2]]; [by split|].
  split; [apply IH2|]. intros c. apply Hstep; [done|apply IH2].
Qed.

(** *** Texts without unpaired surrogates *)

Lemma toWellFormed_step c d rest :
  toWellFormed (c :: d :: rest)
  = if is_high_surrogate c then
      if is_low_surrogate d then c :: d :: toWellFormed rest
      else REPLACEMENT :: toWellFormed (d :: rest)
    else if is_low_surrogate c then REPLACEMENT :: toWellFormed (d :: rest)
    else c :: toWellFormed (d :: rest).
Proof. reflexivity. Qed.

Lemma toWellFormed_plain c rest :
  is_high_surrogate c = false → is_low_surrogate c = false →
  toWellFormed (c :: rest) = c :: toWellFormed rest.
Proof. intros Hh Hl. simpl. by rewrite Hh, Hl. Qed.

Lemma replacement_not_high c : REPLACEMENT = c → is_high_surrogate c = false.
Proof. by intros <-. Qed.

Lemma replacement_not_low c : REPLACEMENT = c → is_low_surrogate c = false.
Proof. by intros <-. Qed.

(** A text without unpaired surrogates, standing in front of another,
    is decoded as itself. *)
Lemma toWellFormed_app s1 s2 :
  well_formed_text s1 → toWellFormed (s1 ++ s2) = s1 ++ toWellFormed s2.
Proof.
  unfold well_formed_text. revert s1.
  refine (pairwise_ind _ _ _ _); [done|..].
  - intros c H. simpl in H |- *.
    destruct (is_high_surrogate c) eqn:Hh.
    { injection H as H. apply replacement_not_high in H. congruence. }
    destruct (is_low_surrogate c) eqn:Hl; [|done].
    injection H as H. apply replacement_not_low in H. congruence.
  - intros c d rest IH1 IH2 H. rewrite toWellFormed_step in H.
    change ((c :: d :: rest) ++ s2) with (c :: d :: (rest ++ s2)).
    rewrite toWellFormed_step.
    destruct (is_high_surrogate c) eqn:Hh.
    + destruct (is_low_surrogate d) eqn:Hl.
      * injection H as H. by rewrite IH1.
      * injection H as H _. apply replacement_not_high in H. congruence.
    + destruct (is_low_surrogate c) eqn:Hl.
      * injection H as H _. apply replacement_not_low in H. congruence.
      * assert (toWellFormed (d :: rest) = d :: rest) as H' by congruence.
        change (c :: toWellFormed ((d :: rest) ++ s2) = c :: ((d :: rest) ++ toWellFormed s2)).
        by rewrite IH2.
Qed.

Lemma well_formed_text_app s1 s2 :
  well_formed_text s1 → well_formed_text s2 → well_formed_text (s1 ++ s2).
Proof.
  intros H1 H2. unfold well_formed_text. by rewrite toWellFormed_app, H2.
Qed.

Lemma escapeChar_surrogate c :
  is_high_surrogate c || is_low_surrogate c = true → escapeChar c = [c].
Proof.
  unfold escapeChar. intros H.
  destruct (decide (c = COLON)) as [->|_]; [done|].
  destruct (decide (c = NEWLINE)) as [->|_]; [done|].
  by destruct (decide (c = BACKSLASH)) as [->|_].
Qed.

Lemma well_formed_escapeChar c :
  is_high_surrogate c = false → is_low_surrogate c = false →
  well_formed_text (escapeChar c).
Proof.
  intros Hh Hl. unfold escapeChar, well_formed_text.
  destruct (decide (c = COLON)); [done|].
  destruct (decide (c = NEWLINE)); [done|].
  destruct (decide (c = BACKSLASH)); [done|].
  by rewrite toWellFormed_plain.
Qed.

(** Escaping adds no surrogate and parts no pair. *)
Lemma well_formed_escapeString s :
  well_formed_text s → well_formed_text (escapeString s).
Proof.
  unfold well_formed_text. revert s.
  refine (pairwise_ind _ _ _ _); [done|..].
  - intros c H. rewrite escapeString_cons. apply well_formed_text_app; [|done].
    simpl in H. destruct (is_high_surrogate c) eqn:Hh.
    { injection H as H. apply replacement_not_high in H. congruence. }
    destruct (is_low_surrogate c) eqn:Hl.
    { injection H as H. apply replacement_not_low in H. congruence. }
    by apply well_formed_escapeChar.
  - intros c d rest IH1 IH2 H. rewrite toWellFormed_step in H.
    destruct (is_high_surrogate c) eqn:Hh.
    + destruct (is_low_surrogate d) eqn:Hl.
      * injection H as H. rewrite !escapeString_cons.
        rewrite (escapeChar_surrogate c) by by rewrite Hh.
        rewrite (escapeChar_surrogate d) by (rewrite Hl; apply orb_true_r).
        change ([c] ++ [d] ++ escapeString rest) with (c :: d :: escapeString rest).
        rewrite toWellFormed_step, Hh, Hl. by rewrite IH1.
      * injection H as H _. apply replacement_not_high in H. congruence.
    + destruct (is_low_surrogate c) eqn:Hl.
      * injection H as H _. apply replacement_not_low in H. congruence.
      * assert (toWellFormed (d :: rest) = d :: rest) as H' by congruence.
        rewrite escapeString_cons.
        apply well_formed_text_app; [by apply well_formed_escapeChar|by apply IH2].
Qed.

Lemma well_formed_line e : storable e → well_formed_text (line e).
Proof.
  intros (_ & _ & _ & Hk & Hv). unfold line.
  apply well_formed_text_app; [by apply well_formed_escapeString|].
  apply well_formed_text_app; [done|].
  destruct (value e) as [v|]; [|done]. apply well_formed_escapeString, Hv.
Qed.

Lemma well_formed_join ls :
  Forall well_formed_text ls → well_formed_text (join [NEWLINE] ls).
Proof.
  induction 1 as [|l ls Hl Hls IH]; [done|].
  destruct ls as [|l' ls]; [done|].
  change (join [NEWLINE] (l :: l' :: ls)) with (l ++ [NEWLINE] ++ join [NEWLINE] (l' :: ls)).
  apply well_formed_text_app; [done|]. by apply well_formed_text_app.
Qed.

(** What [save] writes for storable entries is read back as written. *)
Lemma content_well_formed buckets :
  Forall storable (mjoin buckets) → toWellFormed (content buckets) = content buckets.
Proof.
  intros Hall. apply well_formed_join. unfold lines. apply Forall_fmap.
  eapply Forall_impl; [done|]. intros e. apply well_formed_line.
Qed.

Lemma parse_content buckets :
  Forall storable (mjoin buckets) → parse (content buckets) = mjoin buckets.
Proof.
  intros Hall. unfold parse, content, lines.
  destruct (mjoin buckets) as [|e es] eqn:Hes; [done|].
  rewrite fmap_cons, splitString_join.
  - rewrite <- fmap_cons. by apply omap_load_line_lines.
  - rewrite <- fmap_cons. apply Forall_fmap, Forall_true. intros e'. apply line_no_newline.
Qed.

Lemma trimStart_snoc l c :
  is_whitespace c = false → ∃ l', trimStart (l ++ [c]) = l' ++ [c].
Proof.
  intros Hc. induction l as [|d l IH]; simpl.
  - rewrite Hc. by exists [].
  - destruct (is_whitespace d); [done|]. by exists (d :: l).
Qed.

Lemma trim_head_colon raw :
  head raw = Some COLON → head (trim raw) = Some COLON.
Proof.
  destruct raw as [|c r]; [done|]. intros [= ->].
  unfold trim, trimEnd. rewrite reverse_cons.
  destruct (trimStart_snoc (reverse r) COLON) as [l' ->]; [done|].
  by rewrite reverse_snoc.
Qed.

Lemma load_line_colon_first raw :
  indexOfString raw [COLON] = 0 → load_line raw = None.
Proof.
  intros H%indexOfString_colon_0%trim_head_colon%indexOfString_colon_0.
  unfold load_line. cbv zeta. rewrite H.
  destruct (decide (trim raw = [])); [done|].
  by destruct (decide (0 < 0)).
Qed.

Lemma load_line_key raw e : load_line raw = Some e → key e ≠ [].
Proof.
  unfold load_line. cbv zeta.
  destruct (decide (trim raw = [])) as [|Hne]; [done|].
  destruct (decide (0 < _)) as [Hpos|]; [|done].
  intros [= <-]. simpl. apply unescapeString_nonempty.
  unfold substring_to. destruct (trim raw) as [|c l]; [done|].
  destruct (Z.to_nat _) eqn:Hn; [lia|done].
Qed.

Lemma parse_key content e : e ∈ parse content → key e ≠ [].
Proof.
  unfold parse. rewrite list_elem_of_omap.
  intros (raw & _ & Hraw). by eapply load_line_key.
Qed.

End Persistence.

(** ** The loops over one bucket *)

Section Buckets.
Import BucketManager.
Implicit Types (b : list entry) (k w : jsstring) (v : jsvalue) (e : entry).

Lemma has_loop_true b k : has_loop b k = true ↔ k ∈ key <$> b.
Proof.
  induction b as [|e b IH]; simpl.
  - split; [done|]. by intros ?%elem_of_nil.
  - rewrite elem_of_cons. destruct (decide (key e = k)) as [<-|Hne]; [tauto|].
    rewrite IH. split; [tauto|]. intros [?|?]; [congruence|done].
Qed.

Lemma has_loop_false b k : has_loop b k = false ↔ k ∉ key <$> b.
Proof. rewrite <- has_loop_true. by destruct (has_loop b k). Qed.

Lemma get_loop_None b k : get_loop b k = None ↔ k ∉ key <$> b.
Proof.
  induction b as [|e b IH]; simpl.
  - split; [intros _; apply not_elem_of_nil|done].
  - rewrite not_elem_of_cons. destruct (decide (key e = k)) as [<-|Hne].
    + split; [done|]. by intros [? _].
    + rewrite IH. split; [by split; [congruence|]|tauto].
Qed.

Lemma get_loop_Some b k v :
  NoDup (key <$> b) → get_loop b k = Some v ↔ Entry k v ∈ b.
Proof.
  induction b as [|e b IH]; simpl; intros Hnd.
  - split; [done|]. by intros ?%elem_of_nil.
  - apply NoDup_cons in Hnd as [Hnotin Hnd]. rewrite elem_of_cons.
    destruct (decide (key e = k)) as [<-|Hne].
    + split.
      * intros [= <-]. left. by destruct e.
      * intros [<-|Hin]; [done|]. destruct Hnotin.
        by apply (list_elem_of_fmap_2 key) in Hin.
    + rewrite (IH Hnd). split; [tauto|]. intros [Heq|?]; [|done].
      subst e. by destruct Hne.
Qed.

Lemma get_loop_set_loop b k v k' :
  get_loop (set_loop b k v) k' = if decide (k' = k) then Some v else get_loop b k'.
Proof.
  induction b as [|e b IH]; simpl.
  - destruct (decide (k = k')) as [<-|?]; destruct (decide _); naive_solver.
  - destruct (decide (key e = k)) as [<-|Hne]; simpl.
    + destruct (decide (key e = k')) as [<-|?]; destruct (decide _); naive_solver.
    + rewrite IH. destruct (decide (key e = k')) as [<-|?]; [|done].
      by destruct (decide (key e = k)).
Qed.

Lemma set_loop_new b k v : k ∉ key <$> b → set_loop b k v = b ++ [Entry k v].
Proof.
  induction b as [|e b IH]; simpl; [done|].
  rewrite not_elem_of_cons. intros [Hne Hb].
  destruct (decide (key e = k)) as [|_]; [congruence|]. by rewrite IH.
Qed.

Lemma set_loop_overwrite b k w :
  NoDup (key <$> b) → k ∈ key <$> b → set_loop b k (VStr w) = overwrite k w <$> b.
Proof.
  induction b as [|e b IH]; simpl.
  - by intros _ ?%elem_of_nil.
  - intros [Hnotin Hnd]%NoDup_cons Hin. unfold overwrite at 1.
    destruct (decide (key e = k)) as [<-|Hne].
    + f_equal. clear IH Hin. induction b as [|e' b IHb]; [done|].
      simpl in *. apply not_elem_of_cons in Hnotin as [Hne Hnotin].
      apply NoDup_cons in Hnd as [_ Hnd].
      unfold overwrite at 1. destruct (decide (key e' = key e)); [congruence|].
      f_equal. by apply IHb.
    + f_equal. apply IH; [done|]. apply elem_of_cons in Hin as [|]; [congruence|done].
Qed.

Lemma overwrite_absent b k w : k ∉ key <$> b → overwrite k w <$> b = b.
Proof.
  induction b as [|e b IH]; csimpl; [done|].
  rewrite not_elem_of_cons. intros [Hne Hb]. unfold overwrite at 1.
  destruct (decide (key e = k)); [congruence|]. by rewrite IH.
Qed.

Lemma key_overwrite k w e : key (overwrite k w e) = key e.
Proof. unfold overwrite. by destruct (decide (key e = k)). Qed.

Lemma keys_overwrite b k w : key <$> (overwrite k w <$> b) = key <$> b.
Proof.
  rewrite <- list_fmap_compose. apply list_fmap_ext. intros _ e _. apply key_overwrite.
Qed.

Lemma overwrite_overwrite k w w' e :
  overwrite k w' (overwrite k w e) = overwrite k w' e.
Proof.
  unfold overwrite. destruct (decide (key e = k)) as [Hk|Hk]; simpl.
  - by destruct (decide (key e = k)).
  - by destruct (decide (key e = k)).
Qed.

Lemma length_set_loop b k v :
  length (set_loop b k v) = if has_loop b k then length b else S (length b).
Proof.
  induction b as [|e b IH]; simpl; [done|].
  destruct (decide (key e = k)); simpl; [done|].
  rewrite IH. by destruct (has_loop b k).
Qed.

(** Deleting cuts one entry out and leaves the others in their order;
    the entry cut out is the first with that key. *)
Lemma delete_loop_Some b k b' :
  delete_loop b k = Some b' →
  ∃ l1 e l2, b = l1 ++ e :: l2 ∧ b' = l1 ++ l2 ∧ key e = k ∧ k ∉ key <$> l1.
Proof.
  revert b'. induction b as [|e b IH]; simpl; intros b'; [done|].
  destruct (decide (key e = k)) as [Hk|Hk].
  - intros [= <-]. exists [], e, b. repeat split; [done|apply not_elem_of_nil].
  - destruct (delete_loop b k) as [b''|]; [|done]. intros [= <-].
    destruct (IH b'' eq_refl) as (l1 & e' & l2 & -> & -> & He' & Hl1).
    exists (e :: l1), e', l2. repeat split; [done|].
    rewrite fmap_cons, not_elem_of_cons. split; [congruence|done].
Qed.

Lemma delete_loop_None b k : delete_loop b k = None ↔ k ∉ key <$> b.
Proof.
  induction b as [|e b IH]; simpl.
  - split; [intros _; apply not_elem_of_nil|done].
  - rewrite not_elem_of_cons. destruct (decide (key e = k)) as [<-|Hne].
    + split; [done|]. by intros [? _].
    + destruct (delete_loop b k); simpl.
      * split; [done|]. intros [_ H]. by apply IH in H.
      * split; [|done]. intros _. split; [congruence|]. by apply IH.
Qed.

Lemma keys_set_loop_present b k v :
  k ∈ key <$> b → key <$> set_loop b k v = key <$> b.
Proof.
  induction b as [|e b IH]; csimpl; [by intros ?%elem_of_nil|].
  intros Hin. destruct (decide (key e = k)) as [<-|Hne]; csimpl; [done|].
  f_equal. apply IH. apply elem_of_cons in Hin as [|]; [congruence|done].
Qed.

Lemma bucket_ok_set_loop hf i b k v :
  bucket_ok hf i b → HashFunction.hash hf k = Z.of_nat i →
  bucket_ok hf i (set_loop b k v).
Proof.
  intros [Hnd Hall] Hk.
  destruct (decide (k ∈ key <$> b)) as [Hin|Hin].
  - split.
    + by rewrite keys_set_loop_present.
    + apply (Forall_fmap key (λ x, HashFunction.hash hf x = Z.of_nat i)).
      rewrite keys_set_loop_present by done.
      by apply (Forall_fmap key (λ x, HashFunction.hash hf x = Z.of_nat i)).
  - rewrite set_loop_new by done. split.
    + rewrite fmap_app. apply NoDup_app. split; [done|]. split.
      * intros x Hx. simpl. rewrite elem_of_cons, elem_of_nil.
        intros [->|[]]. by destruct Hin.
      * apply NoDup_singleton.
    + apply Forall_app. split; [done|]. by apply Forall_singleton.
Qed.

Lemma bucket_ok_delete_loop hf i b k b' :
  bucket_ok hf i b → delete_loop b k = Some b' →
  bucket_ok hf i b' ∧ (k ∉ key <$> b')
  ∧ ∀ k', k' ≠ k → get_loop b' k' = get_loop b k'.
Proof.
  intros [Hnd Hall] (l1 & e & l2 & -> & -> & He & Hl1)%delete_loop_Some.
  rewrite fmap_app, fmap_cons in Hnd.
  apply NoDup_app in Hnd as (Hnd1 & Hdisj & [Hnotin Hnd2]%NoDup_cons).
  apply Forall_app in Hall as [Hall1 [_ Hall2]%Forall_cons].
  split; [split|split].
  - rewrite fmap_app. apply NoDup_app. split; [done|]. split; [|done].
    intros x Hx Hx2. apply (Hdisj x Hx). by right.
  - by apply Forall_app.
  - rewrite fmap_app, elem_of_app. intros [?|?]; [done|]. by subst k.
  - intros k' Hk'. clear -He Hk'.
    induction l1 as [|e1 l1 IH]; simpl.
    + destruct (decide (key e = k')); [congruence|done].
    + by rewrite IH.
Qed.

End Buckets.

(** ** The store *)

Section Store.
Import HashMapStore.

Abbreviation bs s := (BucketManager.buckets (bucketManager s)).
Abbreviation idx s k := (Z.to_nat (HashFunction.hash (hashFunction s) k)).

Implicit Types (s : HashMapStore.t) (k w : jsstring) (v : jsvalue) (b : list entry).

Lemma for_each_nil {S A} (body : S → A → outcome S) (st : S) :
  for_each body [] st = Done st.
Proof. reflexivity. Qed.

Lemma for_each_thrown {S A} (body : S → A → outcome S) (xs : list A) :
  foldl (λ acc x, st ← acc; body st x) TypeError xs = TypeError.
Proof. induction xs as [|x xs IH]; [done|]. simpl. apply IH. Qed.

Lemma for_each_cons {S A} (body : S → A → outcome S) x (xs : list A) (st : S) :
  for_each body (x :: xs) st = st' ← body st x; for_each body xs st'.
Proof.
  unfold for_each. simpl. destruct (body st x) as [st'|]; simpl; [done|].
  apply for_each_thrown.
Qed.

(** A loop whose body keeps an invariant and never throws ends, in a
    state where the invariant holds. *)
Lemma for_each_invariant {S A} (I : S → Prop) (body : S → A → outcome S) xs st :
  (∀ st x, I st → ∃ st', body st x = Done st' ∧ I st') →
  I st → ∃ st', for_each body xs st = Done st' ∧ I st'.
Proof.
  intros Hbody. revert st. induction xs as [|x xs IH]; intros st Hst.
  - by exists st.
  - destruct (Hbody st x Hst) as (st1 & Hrun & Hst1).
    destruct (IH st1 Hst1) as (st' & Hrest & Hst').
    exists st'. by rewrite for_each_cons, Hrun.
Qed.

(** *** What each operation does on a store whose counts agree *)

Lemma bucket_at_hash s k :
  in_sync s →
  ∃ b, bs s !! idx s k = Some b
       ∧ BucketManager.bucket_at (bucketManager s)
           (HashFunction.hash (hashFunction s) k) = Done b.
Proof.
  intros (Hpos & Hhf & _ & Hlen).
  pose proof (hash_range (hashFunction s) k) as Hr. rewrite Hhf in Hr.
  specialize (Hr Hpos).
  destruct (lookup_lt_is_Some_2 (bs s) (idx s k)) as [b Hb]; [lia|].
  exists b. split; [done|]. unfold BucketManager.bucket_at, JS.at_index.
  destruct (decide (0 ≤ _)); [|lia]. by rewrite Hb.
Qed.

Lemma operations s k :
  in_sync s →
  ∃ b, bs s !! idx s k = Some b
    ∧ has s k = Done (BucketManager.has_loop b k)
    ∧ get s k = Done (BucketManager.get_loop b k)
    ∧ (∀ v, setWithoutSave s k v
            = Done (with_buckets s (<[idx s k := BucketManager.set_loop b k v]> (bs s))))
    ∧ (∀ w, update s k w
            = Done (if BucketManager.has_loop b k
                    then (true, saveToDisk (with_buckets s
                            (<[idx s k := BucketManager.set_loop b k (VStr w)]> (bs s))))
                    else (false, s)))
    ∧ delete s k
      = Done (match BucketManager.delete_loop b k with
              | Some b' => (true, saveToDisk (with_buckets s (<[idx s k := b']> (bs s))))
              | None => (false, s)
              end).
Proof.
  intros Hs. destruct (bucket_at_hash s k Hs) as (b & Hb & Hget).
  exists b. split; [done|].
  unfold has, get, setWithoutSave, update, delete,
    BucketManager.hasInBucket, BucketManager.getFromBucket,
    BucketManager.setInBucket, BucketManager.deleteFromBucket.
  rewrite Hget. simpl. repeat split; try done.
  - intros v. by destruct (BucketManager.has_loop b k).
  - by destruct (BucketManager.delete_loop b k).
Qed.

(** *** Keeping the invariants *)

Lemma in_sync_with_buckets s l :
  in_sync s → length l = length (bs s) → in_sync (with_buckets s l).
Proof. intros (? & ? & ? & ?) Hl. unfold in_sync. simpl. by rewrite Hl. Qed.

Lemma in_sync_saveToDisk s : in_sync s → in_sync (saveToDisk s).
Proof. done. Qed.

Lemma placed_saveToDisk s : placed s → placed (saveToDisk s).
Proof. done. Qed.

Lemma well_formed_saveToDisk s : well_formed s → well_formed (saveToDisk s).
Proof. done. Qed.

Lemma placed_insert s i b' :
  placed s → bucket_ok (hashFunction s) i b' →
  placed (with_buckets s (<[i := b']> (bs s))).
Proof.
  intros Hs Hb' j bucket. simpl.
  destruct (decide (i = j)) as [<-|Hne].
  - intros Hj. assert (i < length (bs s))%nat as Hi.
    { apply lookup_lt_Some in Hj. by rewrite length_insert in Hj. }
    rewrite list_lookup_insert_eq in Hj by done. by injection Hj as <-.
  - rewrite list_lookup_insert_ne by done. apply Hs.
Qed.

Lemma well_formed_insert s i b' :
  well_formed s → bucket_ok (hashFunction s) i b' →
  well_formed (with_buckets s (<[i := b']> (bs s))).
Proof.
  intros [Hsync Hpl] Hb'. split.
  - apply in_sync_with_buckets; [done|]. apply length_insert.
  - by apply placed_insert.
Qed.

Lemma hash_idx s k : in_sync s →
  HashFunction.hash (hashFunction s) k = Z.of_nat (idx s k).
Proof.
  intros (Hpos & Hhf & _). pose proof (hash_range (hashFunction s) k). lia.
Qed.

Lemma setWithoutSave_get s k v k' b :
  in_sync s → bs s !! idx s k = Some b →
  get (with_buckets s (<[idx s k := BucketManager.set_loop b k v]> (bs s))) k'
  = if decide (k' = k) then Done (Some v) else get s k'.
Proof.
  intros Hs Hb.
  assert (in_sync (with_buckets s (<[idx s k := BucketManager.set_loop b k v]> (bs s))))
    as Hs' by (apply in_sync_with_buckets; [done|apply length_insert]).
  destruct (operations _ k' Hs') as (b1 & Hb1 & _ & -> & _).
  destruct (operations s k' Hs) as (b0 & Hb0 & _ & -> & _).
  simpl in Hb1.
  destruct (decide (idx s k = idx s k')) as [Heq|Hne].
  - rewrite <- Heq in Hb1, Hb0.
    rewrite list_lookup_insert_eq in Hb1 by (by eapply lookup_lt_Some).
    injection Hb1 as <-. assert (b0 = b) as -> by congruence.
    rewrite get_loop_set_loop.
    by destruct (decide (k' = k)).
  - rewrite list_lookup_insert_ne in Hb1 by done.
    assert (b1 = b0) as -> by congruence.
    destruct (decide (k' = k)) as [->|]; [done|done].
Qed.

Lemma setWithoutSave_well_formed s k v :
  well_formed s →
  ∃ s', setWithoutSave s k v = Done s' ∧ well_formed s'
        ∧ bucketCount s' = bucketCount s
        ∧ hashFunction s' = hashFunction s
        ∧ diskPersistence s' = diskPersistence s.
Proof.
  intros Hwf. pose proof Hwf as [Hs Hpl].
  destruct (operations s k Hs) as (b & Hb & _ & _ & Hset & _).
  eexists. split; [apply Hset|]. split; [|done].
  apply well_formed_insert; [done|].
  apply bucket_ok_set_loop; [by apply Hpl|by apply hash_idx].
Qed.

(** *** Where the keys are *)

Lemma elem_of_entries s e :
  e ∈ BucketManager.entries (bucketManager s) ↔ ∃ i b, bs s !! i = Some b ∧ e ∈ b.
Proof.
  unfold BucketManager.entries. rewrite list_elem_of_join. split.
  - intros (b & He & [i Hi]%list_elem_of_lookup). by exists i, b.
  - intros (i & b & Hi & He). exists b. split; [done|].
    by eapply list_elem_of_lookup_2.
Qed.

Lemma elem_of_getAllKeys s k : k ∈ getAllKeys s ↔ ∃ i, key_in_bucket s k i.
Proof.
  unfold getAllKeys, BucketManager.getAllKeys, key_in_bucket.
  rewrite list_elem_of_fmap. split.
  - intros (e & -> & (i & b & Hi & He)%elem_of_entries).
    exists i, b. split; [done|]. by apply list_elem_of_fmap_2.
  - intros (i & b & Hi & (e & -> & He)%list_elem_of_fmap).
    exists e. split; [done|]. apply elem_of_entries. by exists i, b.
Qed.

Lemma placed_index s k i : placed s → key_in_bucket s k i → i = idx s k.
Proof.
  intros Hpl (b & Hb & (e & -> & He)%list_elem_of_fmap).
  destruct (Hpl i b Hb) as [_ Hall].
  rewrite Forall_forall in Hall. rewrite (Hall e He). lia.
Qed.

Lemma in_table s k b :
  placed s → bs s !! idx s k = Some b →
  k ∈ getAllKeys s ↔ k ∈ key <$> b.
Proof.
  intros Hpl Hb. rewrite elem_of_getAllKeys. split.
  - intros [i Hi]. pose proof (placed_index s k i Hpl Hi) as ->.
    destruct Hi as (b' & Hb' & Hk). congruence.
  - intros Hk. exists (idx s k), b. done.
Qed.

Lemma has_getAllKeys s k :
  well_formed s → has s k = Done (bool_decide (k ∈ getAllKeys s)).
Proof.
  intros [Hs Hpl]. destruct (operations s k Hs) as (b & Hb & -> & _).
  f_equal. destruct (BucketManager.has_loop b k) eqn:Hhas; symmetry.
  - apply bool_decide_eq_true_2, (in_table s k b Hpl Hb). by apply has_loop_true.
  - apply bool_decide_eq_false_2. rewrite (in_table s k b Hpl Hb).
    by apply has_loop_false.
Qed.

Lemma unique_key b (e1 e2 : entry) :
  NoDup (key <$> b) → e1 ∈ b → e2 ∈ b → key e1 = key e2 → e1 = e2.
Proof.
  induction b as [|e b IH]; csimpl; [by intros _ ?%elem_of_nil|].
  intros [Hnotin Hnd]%NoDup_cons [->|H1]%elem_of_cons [->|H2]%elem_of_cons Hk.
  - done.
  - destruct Hnotin. rewrite Hk. by apply list_elem_of_fmap_2.
  - destruct Hnotin. rewrite <- Hk. by apply list_elem_of_fmap_2.
  - by apply IH.
Qed.

Lemma entry_bucket s e i b :
  placed s → bs s !! i = Some b → e ∈ b → i = idx s (key e).
Proof.
  intros Hpl Hb He. apply placed_index; [done|]. exists b. split; [done|].
  by apply list_elem_of_fmap_2.
Qed.

Lemma entries_functional s (e1 e2 : entry) :
  placed s →
  e1 ∈ BucketManager.entries (bucketManager s) →
  e2 ∈ BucketManager.entries (bucketManager s) →
  key e1 = key e2 → e1 = e2.
Proof.
  intros Hpl (i1 & b1 & Hb1 & He1)%elem_of_entries
    (i2 & b2 & Hb2 & He2)%elem_of_entries Hk.
  pose proof (entry_bucket s e1 i1 b1 Hpl Hb1 He1) as ->.
  pose proof (entry_bucket s e2 i2 b2 Hpl Hb2 He2) as ->.
  rewrite Hk in Hb1. assert (b1 = b2) as -> by congruence.
  destruct (Hpl _ _ Hb2) as [Hnd _]. by eapply unique_key.
Qed.

Lemma get_entry s k v :
  well_formed s →
  get s k = Done (Some v) ↔ Entry k v ∈ BucketManager.entries (bucketManager s).
Proof.
  intros [Hs Hpl]. destruct (operations s k Hs) as (b & Hb & _ & -> & _).
  destruct (Hpl _ _ Hb) as [Hnd _]. split.
  - intros [= Hget]. apply elem_of_entries. exists (idx s k), b.
    split; [done|]. by apply get_loop_Some.
  - intros (i & b' & Hb' & He)%elem_of_entries.
    pose proof (entry_bucket s _ i b' Hpl Hb' He) as ->. simpl in Hb'.
    assert (b' = b) as -> by congruence.
    f_equal. by apply get_loop_Some.
Qed.

(** Reading the dictionary built by [getAll]. *)
Lemma getAll_fold_lookup (es : list entry) k v :
  (∀ e1 e2, e1 ∈ es → e2 ∈ es → key e1 = key e2 → e1 = e2) →
  k ≠ JS.PROTO →
  foldl (λ result e, JS.obj_set result (key e) (value e))
    (∅ : gmap jsstring jsvalue) es !! k = Some v
  ↔ Entry k v ∈ es.
Proof.
  induction es as [|e es IH] using rev_ind; intros Hfun Hk.
  - simpl. rewrite lookup_empty. split; [done|]. by intros ?%elem_of_nil.
  - rewrite foldl_snoc, elem_of_app, list_elem_of_singleton. unfold JS.obj_set at 1.
    destruct (decide (key e = JS.PROTO)) as [Hproto|_].
    { rewrite IH; [|intros e1 e2 H1 H2; apply Hfun; apply elem_of_app; by left|done].
      split; [tauto|]. intros [?|Heq]; [done|]. subst e. by destruct Hk. }
    rewrite lookup_insert.
    destruct (decide (key e = k)) as [<-|Hne].
    + split.
      * intros [= <-]. right. by destruct e.
      * intros Hin. f_equal.
        assert (Entry (key e) v = e) as <-; [|done].
        apply Hfun; [|apply elem_of_app; right; by apply list_elem_of_singleton|done].
        apply elem_of_app. rewrite list_elem_of_singleton. done.
    + rewrite IH.
      * split; [tauto|]. intros [?|Heq]; [done|]. subst e. by destruct Hne.
      * intros e1 e2 H1 H2. apply Hfun; apply elem_of_app; by left.
      * done.
Qed.

(** The assignment [result["__proto__"] = value] creates no property. *)
Lemma getAll_fold_proto (es : list entry) :
  foldl (λ result e, JS.obj_set result (key e) (value e))
    (∅ : gmap jsstring jsvalue) es !! JS.PROTO = None.
Proof.
  induction es as [|e es IH] using rev_ind; [done|].
  rewrite foldl_snoc. unfold JS.obj_set at 1.
  destruct (decide (key e = JS.PROTO)) as [|Hne]; [done|].
  by rewrite lookup_insert_ne.
Qed.

Lemma get_getAll s k :
  well_formed s → k ≠ JS.PROTO →
  get s k = Done (BucketManager.getAll (bucketManager s) !! k).
Proof.
  intros Hwf Hk. pose proof Hwf as [Hs Hpl].
  destruct (operations s k Hs) as (b & Hb & _ & Hget & _).
  rewrite Hget. f_equal. apply option_eq. intros v.
  unfold BucketManager.getAll.
  rewrite getAll_fold_lookup by (done || intros e1 e2; by apply entries_functional).
  rewrite <- (get_entry s k v Hwf), Hget. split; congruence.
Qed.

Lemma get_None s k : well_formed s → get s k = Done None ↔ k ∉ getAllKeys s.
Proof.
  intros [Hs Hpl]. destruct (operations s k Hs) as (b & Hb & _ & -> & _).
  rewrite (in_table s k b Hpl Hb), <- get_loop_None. split; congruence.
Qed.

(** *** Rehashing *)

(** Writing the keys [ks] one after the other, each with the value
    [val] gives it: the store stays in order, and reads back [val] at
    every key written. *)
Lemma rehash_run (val : jsstring → jsvalue) ks s :
  in_sync s →
  ∃ s', for_each (λ this k, setWithoutSave this k (val k)) ks s = Done s'
        ∧ in_sync s' ∧ (placed s → placed s')
        ∧ bucketCount s' = bucketCount s
        ∧ hashFunction s' = hashFunction s
        ∧ diskPersistence s' = diskPersistence s
        ∧ ∀ k', get s' k' = if decide (k' ∈ ks) then Done (Some (val k')) else get s k'.
Proof.
  revert s. induction ks as [|k ks IH]; intros s Hs.
  - exists s. rewrite for_each_nil. by split_and!.
  - destruct (operations s k Hs) as (b & Hb & _ & _ & Hset & _).
    set (s1 := with_buckets s (<[idx s k := BucketManager.set_loop b k (val k)]> (bs s))).
    assert (in_sync s1) as Hs1
      by (apply in_sync_with_buckets; [done|apply length_insert]).
    destruct (IH s1 Hs1) as (s' & Hrun & Hs' & Hpl' & Hbc & Hhf & Hdisk & Hget).
    exists s'. rewrite for_each_cons, Hset. split_and!; try done.
    + intros Hpl. apply Hpl', placed_insert; [done|].
      apply bucket_ok_set_loop; [by apply Hpl|by apply hash_idx].
    + intros k'. rewrite Hget. unfold s1. rewrite setWithoutSave_get by done.
      destruct (decide (k' ∈ ks)) as [Hin|Hnotin].
      * rewrite decide_True; [done|]. by right.
      * destruct (decide (k' = k)) as [->|Hne].
        -- rewrite decide_True; [done|]. by left.
        -- rewrite decide_False; [done|]. by intros [?|?]%elem_of_cons.
Qed.

Lemma fresh_table bucketCount' disk :
  0 < bucketCount' →
  let s0 := {| hashFunction := HashFunction.new bucketCount';
               bucketManager := BucketManager.new bucketCount';
               diskPersistence := disk;
               bucketCount := bucketCount' |} in
  well_formed s0 ∧ ∀ k, get s0 k = Done None.
Proof.
  intros Hpos s0.
  assert (in_sync s0) as Hs0.
  { unfold in_sync, s0. simpl. rewrite length_replicate. repeat split; lia. }
  assert (placed s0) as Hpl0.
  { intros i b [-> _]%lookup_replicate. split; [apply NoDup_nil_2|apply Forall_nil_2]. }
  split; [done|]. intros k.
  destruct (operations s0 k Hs0) as (b & [-> _]%lookup_replicate & _ & -> & _). done.
Qed.

Lemma resize_spec s :
  well_formed s →
  ∃ s', resize s = Done s' ∧ well_formed s'
        ∧ bucketCount s' = bucketCount s * 2
        ∧ hashFunction s' = HashFunction.new (bucketCount s * 2)
        ∧ diskPersistence s' = diskPersistence s
        ∧ ∀ k, get s' k
               = if decide (k = JS.PROTO ∧ k ∈ getAllKeys s)
                 then Done (Some VObjectPrototype) else get s k.
Proof.
  intros Hwf. pose proof Hwf as [Hs Hpl]. unfold resize. cbv zeta.
  destruct (fresh_table (bucketCount s * 2) (diskPersistence s)) as [[Hs0 Hpl0] Hget0].
  { destruct Hs. lia. }
  destruct (rehash_run (λ k, JS.obj_get (BucketManager.getAll (bucketManager s)) k)
              (BucketManager.getAllKeys (bucketManager s)) _ Hs0)
    as (s' & Hrun & Hs' & Hpl' & Hbc & Hhf & Hdisk & Hget).
  exists s'. split_and!; try done; [split; [done|by apply Hpl']|].
  intros k. rewrite Hget, Hget0. unfold JS.obj_get.
  change (BucketManager.getAllKeys (bucketManager s)) with (getAllKeys s).
  destruct (decide (k ∈ getAllKeys s)) as [Hin|Hnotin].
  - destruct (decide (k = JS.PROTO)) as [Hproto|Hne].
    + by rewrite decide_True.
    + rewrite decide_False by tauto. rewrite (get_getAll s k Hwf Hne).
      destruct (BucketManager.getAll (bucketManager s) !! k) as [v|] eqn:Hv.
      * by rewrite (lookup_total_correct _ _ _ Hv).
      * exfalso. apply (proj1 (get_None s k Hwf)); [|exact Hin].
        by rewrite get_getAll, Hv.
  - rewrite decide_False by tauto. symmetry. by apply get_None.
Qed.

(** *** Starting up *)

Lemma loadFromDisk_well_formed s :
  well_formed s →
  ∃ s', loadFromDisk s = Done s' ∧ well_formed s' ∧ bucketCount s' = bucketCount s.
Proof.
  intros Hwf. unfold loadFromDisk. cbv zeta.
  destruct (for_each_invariant
    (λ st, well_formed st ∧ bucketCount st = bucketCount s)
    (λ this e, setWithoutSave this (key e) (value e))
    (DiskPersistence.load (diskPersistence s)) s) as (s' & Hrun & Hwf' & Hbc).
  - intros st e [Hst Hbc].
    destruct (setWithoutSave_well_formed st (key e) (value e) Hst)
      as (st' & Hrun & Hst' & Hbc' & _).
    exists st'. split_and!; [done|done|congruence].
  - done.
  - by exists s'.
Qed.

Lemma new_well_formed disk :
  ∃ s, new disk = Done s ∧ well_formed s ∧ bucketCount s = 16.
Proof.
  unfold new. destruct (fresh_table 16 disk) as [Hwf _]; [lia|].
  destruct (loadFromDisk_well_formed _ Hwf) as (s' & Hrun & Hwf' & Hbc).
  by exists s'.
Qed.

(** *** Counting the entries *)

Lemma length_join_insert (l : list (list entry)) i b b' :
  l !! i = Some b →
  (length (mjoin (<[i := b']> l)) + length b = length (mjoin l) + length b')%nat.
Proof.
  intros Hi. rewrite insert_take_drop by by eapply lookup_lt_Some.
  rewrite <- (take_drop_middle l i b Hi) at 3.
  rewrite !join_app. cbn [mjoin list_join]. rewrite !length_app. lia.
Qed.

Lemma totalItems_new_key s k v b :
  bs s !! idx s k = Some b → k ∉ key <$> b →
  length (getAllKeys (with_buckets s (<[idx s k := BucketManager.set_loop b k v]> (bs s))))
  = S (length (getAllKeys s)).
Proof.
  intros Hb Hk. unfold getAllKeys, BucketManager.getAllKeys, BucketManager.entries.
  rewrite !length_fmap. simpl.
  pose proof (length_join_insert (bs s) (idx s k) b (BucketManager.set_loop b k v) Hb) as H.
  rewrite length_set_loop in H. apply has_loop_false in Hk. rewrite Hk in H. lia.
Qed.

(** *** Overwriting in place *)

Lemma insert_overwrite s k w b :
  placed s → bs s !! idx s k = Some b → k ∈ key <$> b →
  <[idx s k := BucketManager.set_loop b k (VStr w)]> (bs s) = overwrite_table k w (bs s).
Proof.
  intros Hpl Hb Hk. apply list_eq. intros i. unfold overwrite_table.
  rewrite list_lookup_fmap.
  destruct (decide (i = idx s k)) as [->|Hne].
  - rewrite list_lookup_insert_eq by by eapply lookup_lt_Some.
    rewrite Hb. simpl. f_equal. apply set_loop_overwrite; [|done]. by apply (Hpl _ _ Hb).
  - rewrite list_lookup_insert_ne by done.
    destruct (bs s !! i) as [bi|] eqn:Hbi; [|done]. simpl. f_equal. symmetry.
    apply overwrite_absent. intros Hin. apply Hne, placed_index; [done|].
    by exists bi.
Qed.

Lemma keys_join_overwrite (l : list (list entry)) k w :
  key <$> mjoin (overwrite_table k w l) = key <$> mjoin l.
Proof.
  unfold overwrite_table. induction l as [|b l IH]; [done|].
  csimpl. by rewrite !fmap_app, keys_overwrite, IH.
Qed.

Lemma NoDup_keys_from h (l : list (list entry)) (off : nat) :
  (∀ i b, l !! i = Some b →
     NoDup (key <$> b) ∧ Forall (λ e, h (key e) = Z.of_nat (off + i)) b) →
  NoDup (key <$> mjoin l).
Proof.
  revert off. induction l as [|b l IH]; intros off Hl; [apply NoDup_nil_2|].
  csimpl. rewrite fmap_app. apply NoDup_app.
  destruct (Hl 0%nat b eq_refl) as [Hnd Hall]. split; [done|]. split.
  - intros x (e & -> & He)%list_elem_of_fmap (e' & Hk & He')%list_elem_of_fmap.
    apply list_elem_of_join in He' as (b' & He' & [i Hi]%list_elem_of_lookup).
    destruct (Hl (S i) b' Hi) as [_ Hall'].
    rewrite Forall_forall in Hall, Hall'.
    pose proof (Hall e He). pose proof (Hall' e' He'). rewrite Hk in *. lia.
  - apply (IH (S off)). intros i b' Hi.
    replace (S off + i)%nat with (off + S i)%nat by lia. by apply (Hl (S i)).
Qed.

Lemma NoDup_getAllKeys s : placed s → NoDup (getAllKeys s).
Proof.
  intros Hpl. apply (NoDup_keys_from (HashFunction.hash (hashFunction s)) _ 0).
  intros i b Hb. apply (Hpl i b Hb).
Qed.

(** *** [set] *)

Lemma set_spec s k w :
  well_formed s →
  ∃ s', set s k w = Done s' ∧ well_formed s'
    ∧ bucketCount s'
      = (if bool_decide ((k ∉ getAllKeys s)
                         ∧ 3 * bucketCount s < 4 * (Z.of_nat (length (getAllKeys s)) + 1))
         then bucketCount s * 2 else bucketCount s)
    ∧ (∀ k', get s' k' = after_set s k w s' k')
    ∧ diskPersistence s' = DiskPersistence.save (diskPersistence s) (bs s').
Proof.
  intros Hwf. pose proof Hwf as [Hs Hpl].
  destruct (operations s k Hs) as (b & Hb & Hhas & _ & Hset & _).
  set (v := VStr w).
  set (s1 := with_buckets s (<[idx s k := BucketManager.set_loop b k v]> (bs s))).
  assert (well_formed s1) as Hwf1.
  { apply well_formed_insert; [done|].
    apply bucket_ok_set_loop; [by apply Hpl|by apply hash_idx]. }
  assert (∀ k', get s1 k' = if decide (k' = k) then Done (Some v) else get s k')
    as Hget1 by (intros k'; by apply setWithoutSave_get).
  unfold set. rewrite Hhas, Hset. fold v s1. simpl. unfold after_set.
  destruct (BucketManager.has_loop b k) eqn:Hin; simpl.
  - exists (saveToDisk s1). split_and!; try done.
    + rewrite bool_decide_eq_false_2; [done|]. intros [Hk _]. apply Hk.
      apply (in_table s k b Hpl Hb). by apply has_loop_true.
    + intros k'. rewrite (decide_False (P := _ ∧ _)); [apply Hget1|].
      by intros (_ & Hbc & _).
  - apply has_loop_false in Hin.
    assert (k ∉ getAllKeys s) as Hk by by rewrite (in_table s k b Hpl Hb).
    unfold shouldResize. change (BucketManager.getAllKeys (bucketManager s1))
      with (getAllKeys s1).
    rewrite (totalItems_new_key s k v b Hb Hin : length (getAllKeys s1) = _).
    replace (Z.of_nat (S (length (getAllKeys s))))
      with (Z.of_nat (length (getAllKeys s)) + 1) by lia.
    change (bucketCount s1) with (bucketCount s).
    destruct (decide (3 * bucketCount s < 4 * (Z.of_nat (length (getAllKeys s)) + 1)))
      as [Hover|Hunder].
    + rewrite (bool_decide_eq_true_2 (3 * _ < _)) by done.
      rewrite bool_decide_eq_true_2 by done.
      destruct (resize_spec s1 Hwf1) as (s2 & -> & Hwf2 & Hbc & _ & Hdisk & Hget2).
      simpl. exists (saveToDisk s2). split_and!; try done.
      * intros k'. change (get (saveToDisk s2) k') with (get s2 k').
        rewrite Hget2, Hget1. simpl.
        assert (bucketCount s2 ≠ bucketCount s) as Hgrown.
        { rewrite Hbc. change (bucketCount s1) with (bucketCount s). destruct Hs. lia. }
        assert (k' ∈ getAllKeys s1 ↔ k' ∈ k :: getAllKeys s) as Hmem.
        { rewrite elem_of_cons.
          destruct (decide (k' ∈ getAllKeys s1)) as [H1|H1].
          - split; [intros _|done]. destruct (decide (k' = k)) as [|Hne]; [by left|].
            right. destruct (decide (k' ∈ getAllKeys s)) as [|H0]; [done|].
            exfalso. apply (proj1 (get_None s1 k' Hwf1)); [|exact H1].
            rewrite Hget1, decide_False by done. by apply get_None.
          - split; [done|]. intros H0. exfalso.
            apply (get_None s1 k' Hwf1) in H1. rewrite Hget1 in H1.
            destruct (decide (k' = k)) as [|Hne]; [done|].
            apply (get_None s k' Hwf) in H1. by destruct H0 as [?|?]. }
        destruct (decide (k' = JS.PROTO ∧ k' ∈ getAllKeys s1)) as [[Hp H1]|Hno].
        -- rewrite decide_True; [done|]. split_and!; [done|done|by apply Hmem].
        -- rewrite (decide_False (P := _ ∧ _)); [done|]. intros (Hp & _ & H1). apply Hno.
           split; [done|by apply Hmem].
      * simpl. by rewrite Hdisk.
    + rewrite (bool_decide_eq_false_2 (3 * _ < _)) by done.
      rewrite bool_decide_eq_false_2 by tauto.
      simpl. exists (saveToDisk s1). split_and!; try done.
      intros k'. rewrite (decide_False (P := _ ∧ _)); [apply Hget1|].
      by intros (_ & Hbc & _).
Qed.

Lemma set_existing s k w :
  well_formed s → k ∈ getAllKeys s →
  set s k w = Done (saveToDisk (with_buckets s (overwrite_table k w (bs s))))
  ∧ set s k w = (s1 ← setWithoutSave s k (VStr w); mret (saveToDisk s1))
  ∧ well_formed (with_buckets s (overwrite_table k w (bs s)))
  ∧ k ∈ getAllKeys (with_buckets s (overwrite_table k w (bs s))).
Proof.
  intros Hwf Hk. pose proof Hwf as [Hs Hpl].
  destruct (operations s k Hs) as (b & Hb & Hhas & _ & Hset & _).
  apply (in_table s k b Hpl Hb) in Hk.
  rewrite <- (insert_overwrite s k w b Hpl Hb Hk).
  unfold set. rewrite Hhas, Hset. simpl.
  rewrite (proj2 (has_loop_true b k) Hk). simpl. split_and!; try done.
  - apply well_formed_insert; [done|].
    apply bucket_ok_set_loop; [by apply Hpl|by apply hash_idx].
  - rewrite (insert_overwrite s k w b Hpl Hb Hk).
    unfold getAllKeys, BucketManager.getAllKeys, BucketManager.entries. simpl.
    rewrite keys_join_overwrite. by apply (in_table s k b Hpl Hb).
Qed.

Lemma overwrite_get s k w :
  well_formed s → k ∈ getAllKeys s →
  ∀ k', get (with_buckets s (overwrite_table k w (bs s))) k'
        = if decide (k' = k) then Done (Some (VStr w)) else get s k'.
Proof.
  intros [Hs Hpl] Hk k'. destruct (operations s k Hs) as (b & Hb & _).
  apply (in_table s k b Hpl Hb) in Hk.
  rewrite <- (insert_overwrite s k w b Hpl Hb Hk). by apply setWithoutSave_get.
Qed.

(** *** [update] and [delete] *)

Lemma update_spec s k w :
  well_formed s →
  (k ∈ getAllKeys s →
     update s k w = Done (true, saveToDisk (with_buckets s (overwrite_table k w (bs s)))))
  ∧ (k ∉ getAllKeys s → update s k w = Done (false, s)).
Proof.
  intros [Hs Hpl]. destruct (operations s k Hs) as (b & Hb & _ & _ & _ & Hupd & _).
  rewrite Hupd, (in_table s k b Hpl Hb). split; intros Hk.
  - rewrite (proj2 (has_loop_true b k) Hk). by rewrite (insert_overwrite s k w b).
  - by rewrite (proj2 (has_loop_false b k) Hk).
Qed.

Lemma delete_absent s k :
  well_formed s → k ∉ getAllKeys s → delete s k = Done (false, s).
Proof.
  intros [Hs Hpl] Hk. destruct (operations s k Hs) as (b & Hb & _ & _ & _ & _ & ->).
  rewrite (in_table s k b Hpl Hb) in Hk. by rewrite (proj2 (delete_loop_None b k) Hk).
Qed.

Lemma delete_present s k :
  well_formed s → k ∈ getAllKeys s →
  ∃ s', delete s k = Done (true, s') ∧ well_formed s'
    ∧ (k ∉ getAllKeys s')
    ∧ (∀ k', k' ≠ k → get s' k' = get s k')
    ∧ bucketCount s' = bucketCount s
    ∧ hashFunction s' = hashFunction s
    ∧ diskPersistence s' = DiskPersistence.save (diskPersistence s) (bs s').
Proof.
  intros Hwf Hk. pose proof Hwf as [Hs Hpl].
  destruct (operations s k Hs) as (b & Hb & _ & _ & _ & _ & Hdel).
  rewrite (in_table s k b Hpl Hb) in Hk.
  destruct (BucketManager.delete_loop b k) as [b'|] eqn:Hloop;
    [|by apply delete_loop_None in Hloop].
  destruct (bucket_ok_delete_loop _ _ b k b' (Hpl _ _ Hb) Hloop) as (Hok & Hgone & Hothers).
  set (s1 := with_buckets s (<[idx s k := b']> (bs s))) in *.
  assert (well_formed s1) as Hwf1 by by apply well_formed_insert.
  assert (bs s1 !! idx s k = Some b') as Hb1.
  { simpl. apply list_lookup_insert_eq. by eapply lookup_lt_Some. }
  exists (saveToDisk s1). split_and!; try done.
  - change (getAllKeys (saveToDisk s1)) with (getAllKeys s1).
    by rewrite (in_table s1 k b' (proj2 Hwf1) Hb1).
  - intros k' Hne. change (get (saveToDisk s1) k') with (get s1 k').
    destruct (operations s1 k' (proj1 Hwf1)) as (c1 & Hc1 & _ & -> & _).
    destruct (operations s k' Hs) as (c0 & Hc0 & _ & -> & _).
    f_equal. simpl in Hc1. destruct (decide (idx s k = idx s k')) as [Heq|Hidx].
    + rewrite <- Heq in Hc1, Hc0. simpl in Hb1.
      assert (c1 = b') as -> by congruence. assert (c0 = b) as -> by congruence.
      by apply Hothers.
    + rewrite list_lookup_insert_ne in Hc1 by done. congruence.
Qed.

(** *** Every store a program can hold is well formed *)

Lemma reachable_well_formed s : reachable s → well_formed s.
Proof.
  induction 1 as [disk s Hnew|s k v s' _ IH Hset|s k v u s' _ IH Hupd|s k d s' _ IH Hdel].
  - destruct (new_well_formed disk) as (s0 & Hrun & Hwf & _). congruence.
  - destruct (set_spec s k v IH) as (s0 & Hrun & Hwf & _). congruence.
  - destruct (update_spec s k v IH) as [Hin Hout].
    destruct (decide (k ∈ getAllKeys s)) as [Hk|Hk].
    + rewrite (Hin Hk) in Hupd. injection Hupd as _ <-.
      apply well_formed_saveToDisk. by apply set_existing.
    + rewrite (Hout Hk) in Hupd. by injection Hupd as _ <-.
  - destruct (decide (k ∈ getAllKeys s)) as [Hk|Hk].
    + destruct (delete_present s k IH Hk) as (s0 & Hrun & Hwf & _). congruence.
    + rewrite (delete_absent s k IH Hk) in Hdel. by injection Hdel as _ <-.
Qed.

End Store.

(** * The specified properties *)

Section Claims.
Import JS StringUtils DiskPersistence HashMapStore.

Abbreviation bs s := (BucketManager.buckets (bucketManager s)).

(** C4. For every string [s], [unescapeString (escapeString s) = s].
    Escaping maps a colon to two colons, a newline to backslash and [n],
    a backslash to two backslashes, character by character; unescaping,
    read from the left, decodes backslash-[n] to a newline, two
    backslashes to one and two colons to one. *)
Theorem codec_round_trip :
  (∀ s, unescapeString (escapeString s) = s)
  ∧ escapeChar COLON = [COLON; COLON]
  ∧ escapeChar NEWLINE = [BACKSLASH; LOWER_N]
  ∧ escapeChar BACKSLASH = [BACKSLASH; BACKSLASH]
  ∧ (∀ c s, escapeString (c :: s) = escapeChar c ++ escapeString s)
  ∧ (∀ rest, unescapeString (BACKSLASH :: LOWER_N :: rest) = NEWLINE :: unescapeString rest)
  ∧ (∀ rest, unescapeString (BACKSLASH :: BACKSLASH :: rest)
             = BACKSLASH :: unescapeString rest)
  ∧ (∀ rest, unescapeString (COLON :: COLON :: rest) = COLON :: unescapeString rest).
Proof.
  split_and!; try done.
  - apply unescape_escape.
  - apply escapeString_cons.
Qed.

(** C2, as amended. With sixteen buckets the hash of ["age"] is 15 and
    the hash of ["name"] is 11, and the shift-and-subtract loop of the
    source is the multiply-by-31 accumulation in wrap-around 32-bit
    signed arithmetic, followed by the absolute value and the remainder. *)
Theorem hash_literals :
  HashFunction.hash (HashFunction.new 16) (str "age") = 15
  ∧ HashFunction.hash (HashFunction.new 16) (str "name") = 11
  ∧ ∀ k, HashFunction.hash (HashFunction.new 16) k = hash_by_31 16 k.
Proof.
  split_and!; [done|done|]. intros k. by apply hash_is_hash_by_31.
Qed.

(** C2 as stated fails: the hash of ["age"] with sixteen buckets is not 2. *)
Lemma hash_age_not_2 : HashFunction.hash (HashFunction.new 16) (str "age") ≠ 2.
Proof. by vm_compute. Qed.

(** C9. For a positive bucket count the hash of a key is determined by
    the key and the bucket count alone, and lies in [0, bucketCount). *)
Theorem hash_stable_in_range (k : jsstring) (n : Z) :
  0 < n →
  ∀ this this',
    HashFunction.bucketCount this = n → HashFunction.bucketCount this' = n →
    HashFunction.hash this k = HashFunction.hash this' k
    ∧ 0 ≤ HashFunction.hash this k < n.
Proof.
  intros Hn [n1] [n2] Hn1 Hn2. simpl in *. subst n1 n2. split; [done|].
  by apply (hash_range (HashFunction.new n)).
Qed.

Lemma hash_stable_in_range_witness :
  HashFunction.hash (HashFunction.new 16) (str "name")
  = HashFunction.hash (HashFunction.new 16) (str "name")
  ∧ 0 ≤ HashFunction.hash (HashFunction.new 16) (str "name") < 16.
Proof.
  apply (hash_stable_in_range (str "name") 16); [lia|reflexivity|reflexivity].
Defined.

(** C10. An entry with the empty key is written as a line that begins
    with the separating colon; [load] adds nothing for a line whose first
    colon is at position 0; so no entry that [load] returns has an empty
    key, and an empty-key entry that was saved is absent after loading. *)
Theorem empty_key_not_loaded :
  (∀ v, line (Entry [] v) = COLON :: escapeValue v)
  ∧ (∀ buckets v, Entry [] v ∈ mjoin buckets →
       COLON :: escapeValue v ∈ lines buckets)
  ∧ (∀ raw, indexOfString raw [COLON] = 0 ∨ indexOfString (trim raw) [COLON] = 0 →
       load_line raw = None)
  ∧ (∀ disk e, e ∈ load disk → key e ≠ [])
  ∧ (∀ disk buckets v, Entry [] v ∉ load (save disk buckets)).
Proof.
  assert (∀ disk e, e ∈ load disk → key e ≠ []) as Hkey.
  { intros disk e. unfold load, readFile. destruct (file disk) as [content|]; simpl.
    - apply parse_key.
    - by intros ?%elem_of_nil. }
  split_and!; try done.
  - intros buckets v Hin. unfold lines.
    by apply (list_elem_of_fmap_2 line) in Hin.
  - intros raw [H|H]; [by apply load_line_colon_first|].
    unfold load_line. cbv zeta. rewrite H.
    destruct (decide (trim raw = [])); [done|]. by destruct (decide (0 < 0)).
  - intros disk buckets v Hin. by apply Hkey in Hin.
Qed.

Lemma empty_key_not_loaded_witness :
  COLON :: escapeValue (VStr (str "v")) ∈ lines [[Entry [] (VStr (str "v"))]]
  ∧ load_line (str ":v") = None.
Proof.
  split.
  - apply (proj1 (proj2 empty_key_not_loaded)). vm_compute. left.
  - apply (proj1 (proj2 (proj2 empty_key_not_loaded))). left. reflexivity.
Defined.

(** C1, as amended. When every entry of the table is storable (its key
    is not empty, holds no colon, does not begin with white space and has
    no unpaired surrogate, and its value is a string that does not end
    with white space and has no unpaired surrogate), [save] followed by
    [load] returns exactly the entries of the table, bucket by bucket,
    each key and value character for character; values may hold colons,
    newlines and backslashes, keys newlines and backslashes. *)
Theorem save_load_round_trip disk (buckets : list (list entry)) :
  Forall storable (mjoin buckets) →
  load (save disk buckets) = mjoin buckets.
Proof.
  intros Hall. unfold load, readFile, save. simpl.
  rewrite content_well_formed by done. by apply parse_content.
Qed.

Lemma save_load_round_trip_witness :
  load (save (DiskPersistence.new None)
          [[Entry (str "na\me") (VStr [97; 58; 98; 10; 99; 92; 55357; 56832])]; [];
           [Entry (str "k") (VStr [])]])
  = [Entry (str "na\me") (VStr [97; 58; 98; 10; 99; 92; 55357; 56832]);
     Entry (str "k") (VStr [])].
Proof.
  apply (save_load_round_trip (DiskPersistence.new None)
           [[Entry (str "na\me") (VStr [97; 58; 98; 10; 99; 92; 55357; 56832])]; [];
            [Entry (str "k") (VStr [])]]).
  apply (bool_decide_unpack _). vm_compute. exact I.
Defined.

(** C1 as stated fails: a key that holds a colon comes back cut at the
    colon; a key that begins, or a value that ends, with a space comes
    back without it; an entry with the empty key does not come back; and
    a surrogate without its partner comes back as U+FFFD. *)
Lemma save_load_not_round_trip :
  load (save (DiskPersistence.new None) [[Entry (str "a:b") (VStr (str "v"))]])
    = [Entry (str "a") (VStr (str ":b:v"))]
  ∧ load (save (DiskPersistence.new None) [[Entry (str " a") (VStr (str "v "))]])
    = [Entry (str "a") (VStr (str "v"))]
  ∧ load (save (DiskPersistence.new None) [[Entry (str "") (VStr (str "v"))]]) = []
  ∧ load (save (DiskPersistence.new None) [[Entry (str "k") (VStr [55296])]])
    = [Entry (str "k") (VStr [65533])]
  ∧ ¬ (∀ disk buckets, NoDup (key <$> mjoin buckets) →
         ∀ e, e ∈ load (save disk buckets) ↔ e ∈ mjoin buckets).
Proof.
  split_and!; [by vm_compute..|].
  intros H.
  specialize (H (DiskPersistence.new None) [[Entry (str "a:b") (VStr (str "v"))]]).
  assert (NoDup (key <$> mjoin [[Entry (str "a:b") (VStr (str "v"))]])) as Hnd
    by (apply (bool_decide_unpack _); by vm_compute).
  destruct (H Hnd (Entry (str "a") (VStr (str ":b:v")))) as [Hfwd _].
  assert (Entry (str "a") (VStr (str ":b:v"))
          ∈ load (save (DiskPersistence.new None) [[Entry (str "a:b") (VStr (str "v"))]]))
    as Hin by (vm_compute; left).
  apply Hfwd, (bool_decide_pack _) in Hin. by vm_compute in Hin.
Qed.

(** C3. The code breaks the claim at the key ["__proto__"]. The store
    [proto_store] holds twelve keys, ["__proto__"] among them with the
    value ["x"]; writing the new key ["m"] takes the entries above three
    quarters of sixteen buckets, the bucket count doubles to 32, and
    [resize] reads the values to write again from the plain object that
    [getAll] built, where the name ["__proto__"] gives [Object.prototype]:
    the key is still in the table, but [get] no longer returns its last
    value, and the file holds an empty value for it. *)
Theorem resize_loses_proto_value :
  get proto_store PROTO = Done (Some (VStr (str "x")))
  ∧ ∃ s', set proto_store (str "m") (str "x") = Done s'
      ∧ bucketCount s' = 2 * bucketCount proto_store
      ∧ PROTO ∈ getAllKeys s'
      ∧ get s' PROTO = Done (Some VObjectPrototype)
      ∧ get s' PROTO ≠ get proto_store PROTO
      ∧ Entry PROTO (VStr []) ∈ load (diskPersistence s').
Proof.
  split; [by vm_compute|]. eexists. split; [vm_compute; reflexivity|].
  split_and!; try (by vm_compute); apply (bool_decide_unpack _); by vm_compute.
Qed.

(** C5. When key [k] is in the table, any number of calls [set(k, v)]
    leaves the bucket count, the hash function and the number of buckets
    as they were, and never enters the resize: each call is the in-place
    write followed by the save.  The table afterwards is the table before
    with the value of [k] replaced by the last value written. *)
Theorem set_existing_key_keeps_capacity s k vs :
  well_formed s → k ∈ getAllKeys s →
  ∃ s', set_repeatedly s k vs = Done s'
    ∧ bucketCount s' = bucketCount s
    ∧ hashFunction s' = hashFunction s
    ∧ BucketManager.bucketCount (bucketManager s')
      = BucketManager.bucketCount (bucketManager s)
    ∧ bs s' = from_option (λ v, overwrite_table k v (bs s)) (bs s) (last vs)
    ∧ writeCount (diskPersistence s')
      = (writeCount (diskPersistence s) + length vs)%nat
    ∧ well_formed s' ∧ k ∈ getAllKeys s'
    ∧ ∀ v, set s' k v = (s1 ← setWithoutSave s' k (VStr v); mret (saveToDisk s1)).
Proof.
  revert s. induction vs as [|v vs IH]; intros s Hwf Hk.
  - exists s. split_and!; try done; try (simpl; lia).
    intros v. by apply set_existing.
  - destruct (set_existing s k v Hwf Hk) as (Hset & _ & Hwf1 & Hk1).
    destruct (IH (saveToDisk (with_buckets s (overwrite_table k v (bs s)))) Hwf1 Hk1)
      as (s' & Hrun & Hbc & Hhf & Hbm & Hbs & Hwrites & Hwf' & Hk' & Hstep).
    exists s'. unfold set_repeatedly. rewrite for_each_cons, Hset.
    split_and!; try done.
    + rewrite Hbs. simpl. destruct vs as [|v' vs]; [done|].
      rewrite last_cons_cons. destruct (last (v' :: vs)) as [w|] eqn:Hlast;
        [|by apply last_None in Hlast].
      simpl. unfold overwrite_table. rewrite <- list_fmap_compose.
      apply list_fmap_ext. intros _ bucket _. simpl.
      rewrite <- list_fmap_compose. apply list_fmap_ext. intros _ e _.
      apply overwrite_overwrite.
    + rewrite Hwrites. simpl. lia.
Qed.

Lemma set_existing_key_keeps_capacity_witness :
  ∃ s', set_repeatedly sample_store (str "age") [str "26"; str "27"; str "28"] = Done s'
    ∧ bucketCount s' = bucketCount sample_store
    ∧ hashFunction s' = hashFunction sample_store
    ∧ BucketManager.bucketCount (bucketManager s')
      = BucketManager.bucketCount (bucketManager sample_store)
    ∧ bs s' = from_option (λ v, overwrite_table (str "age") v (bs sample_store))
                (bs sample_store) (last [str "26"; str "27"; str "28"])
    ∧ writeCount (diskPersistence s')
      = (writeCount (diskPersistence sample_store)
         + length [str "26"; str "27"; str "28"])%nat
    ∧ well_formed s' ∧ str "age" ∈ getAllKeys s'
    ∧ ∀ v, set s' (str "age") v
           = (s1 ← setWithoutSave s' (str "age") (VStr v); mret (saveToDisk s1)).
Proof.
  apply (set_existing_key_keeps_capacity sample_store (str "age")
           [str "26"; str "27"; str "28"]).
  - apply (bool_decide_unpack _). vm_compute. exact I.
  - apply (bool_decide_unpack _). vm_compute. exact I.
Defined.

(** C6. Deleting a key that is not in the table returns [false] and
    gives back the store as it was: every bucket, the bucket count, and
    the file with its count of writes.  Deleting a key that is in the
    table returns [true], removes the key and only that key, keeps the
    bucket count and saves the table. *)
Theorem delete_absent_key_changes_nothing s k :
  well_formed s →
  (k ∉ getAllKeys s → delete s k = Done (false, s))
  ∧ (k ∈ getAllKeys s →
      ∃ s', delete s k = Done (true, s')
        ∧ (k ∉ getAllKeys s')
        ∧ get s' k = Done None
        ∧ (∀ k', k' ≠ k → get s' k' = get s k')
        ∧ bucketCount s' = bucketCount s
        ∧ diskPersistence s' = save (diskPersistence s) (bs s')).
Proof.
  intros Hwf. split; intros Hk.
  - by apply delete_absent.
  - destruct (delete_present s k Hwf Hk)
      as (s' & Hdel & Hwf' & Hgone & Hothers & Hbc & _ & Hdisk).
    exists s'. split_and!; try done. by apply get_None.
Qed.

Lemma delete_absent_key_changes_nothing_witness :
  delete sample_store (str "city") = Done (false, sample_store)
  ∧ ∃ s', delete sample_store (str "age") = Done (true, s')
        ∧ (str "age" ∉ getAllKeys s')
        ∧ get s' (str "age") = Done None
        ∧ (∀ k', k' ≠ str "age" → get s' k' = get sample_store k')
        ∧ bucketCount s' = bucketCount sample_store
        ∧ diskPersistence s' = save (diskPersistence sample_store) (bs s').
Proof.
  assert (well_formed sample_store) as Hwf
    by (apply (bool_decide_unpack _); vm_compute; exact I).
  split.
  - apply (proj1 (delete_absent_key_changes_nothing sample_store (str "city") Hwf)).
    apply (bool_decide_unpack _). vm_compute. exact I.
  - apply (proj2 (delete_absent_key_changes_nothing sample_store (str "age") Hwf)).
    apply (bool_decide_unpack _). vm_compute. exact I.
Defined.

(** C7. [update(k, v)] returns [true] exactly when [k] is in the table.
    When it returns [true] the value of [k] is [v], nothing else in the
    table changes, and the table is saved; when it returns [false] the
    store is as it was, the file included. *)
Theorem update_only_existing_key s k v :
  well_formed s →
  ∃ updated s', update s k v = Done (updated, s')
    ∧ (updated = true ↔ k ∈ getAllKeys s)
    ∧ (updated = true →
         bs s' = overwrite_table k v (bs s)
         ∧ get s' k = Done (Some (VStr v))
         ∧ (∀ k', k' ≠ k → get s' k' = get s k')
         ∧ bucketCount s' = bucketCount s
         ∧ diskPersistence s' = save (diskPersistence s) (bs s'))
    ∧ (updated = false → s' = s).
Proof.
  intros Hwf. destruct (update_spec s k v Hwf) as [Hin Hout].
  destruct (decide (k ∈ getAllKeys s)) as [Hk|Hk].
  - eexists true, _. split; [by apply Hin|]. split_and!; try done.
    intros _. split_and!; try done.
    + change (get (with_buckets s (overwrite_table k v (bs s))) k = Done (Some (VStr v))).
      rewrite overwrite_get by done. by rewrite decide_True.
    + intros k' Hne.
      change (get (with_buckets s (overwrite_table k v (bs s))) k' = get s k').
      rewrite overwrite_get by done. by rewrite decide_False.
  - exists false, s. split; [by apply Hout|]. by split_and!.
Qed.

Lemma update_only_existing_key_witness :
  ∃ updated s', update sample_store (str "missing") (str "x") = Done (updated, s')
    ∧ (updated = true ↔ str "missing" ∈ getAllKeys sample_store)
    ∧ (updated = true →
         bs s' = overwrite_table (str "missing") (str "x") (bs sample_store)
         ∧ get s' (str "missing") = Done (Some (VStr (str "x")))
         ∧ (∀ k', k' ≠ str "missing" → get s' k' = get sample_store k')
         ∧ bucketCount s' = bucketCount sample_store
         ∧ diskPersistence s' = save (diskPersistence sample_store) (bs s'))
    ∧ (updated = false → s' = sample_store).
Proof.
  apply (update_only_existing_key sample_store (str "missing") (str "x")).
  apply (bool_decide_unpack _). vm_compute. exact I.
Defined.

(** C8. In a well-formed store no key occurs twice, and a key occurs
    only in the bucket whose index is its hash under the current bucket
    count, so in exactly one bucket.  [set], [update], [delete] and
    [resize] run to their end on a well-formed store and leave a
    well-formed store; after [resize] the bucket count is doubled and the
    invariant holds for the doubled count. *)
Theorem table_invariant_preserved s k v :
  well_formed s →
  (NoDup (getAllKeys s)
   ∧ (∀ k' i, key_in_bucket s k' i →
        Z.of_nat i = HashFunction.hash (HashFunction.new (bucketCount s)) k')
   ∧ (∀ k' i j, key_in_bucket s k' i → key_in_bucket s k' j → i = j))
  ∧ (∃ s', set s k v = Done s' ∧ well_formed s')
  ∧ (∃ updated s', update s k v = Done (updated, s') ∧ well_formed s')
  ∧ (∃ deleted s', delete s k = Done (deleted, s') ∧ well_formed s')
  ∧ (∃ s', resize s = Done s' ∧ well_formed s'
           ∧ bucketCount s' = 2 * bucketCount s).
Proof.
  intros Hwf. pose proof Hwf as [Hs Hpl]. split_and!.
  - by apply NoDup_getAllKeys.
  - intros k' i Hin. rewrite (placed_index s k' i Hpl Hin).
    rewrite <- (hash_idx s k' Hs). destruct Hs as (_ & Hhf & _).
    destruct (hashFunction s) as [n]. simpl in Hhf. by subst n.
  - intros k' i j Hi Hj.
    by rewrite (placed_index s k' i Hpl Hi), (placed_index s k' j Hpl Hj).
  - destruct (set_spec s k v Hwf) as (s' & Hset & Hwf' & _). by exists s'.
  - destruct (update_spec s k v Hwf) as [Hin Hout].
    destruct (decide (k ∈ getAllKeys s)) as [Hk|Hk].
    + eexists true, _. split; [by apply Hin|].
      apply well_formed_saveToDisk. by apply set_existing.
    + exists false, s. split; [by apply Hout|done].
  - destruct (decide (k ∈ getAllKeys s)) as [Hk|Hk].
    + destruct (delete_present s k Hwf Hk) as (s' & Hdel & Hwf' & _).
      by exists true, s'.
    + exists false, s. split; [by apply delete_absent|done].
  - destruct (resize_spec s Hwf) as (s' & Hrun & Hwf' & Hbc & _).
    exists s'. split_and!; [done|done|lia].
Qed.

Lemma table_invariant_preserved_witness :
  (NoDup (getAllKeys crowded_store)
   ∧ (∀ k' i, key_in_bucket crowded_store k' i →
        Z.of_nat i = HashFunction.hash (HashFunction.new (bucketCount crowded_store)) k')
   ∧ (∀ k' i j, key_in_bucket crowded_store k' i →
        key_in_bucket crowded_store k' j → i = j))
  ∧ (∃ s', set crowded_store (str "m") (str "x") = Done s' ∧ well_formed s')
  ∧ (∃ updated s', update crowded_store (str "m") (str "x") = Done (updated, s')
                   ∧ well_formed s')
  ∧ (∃ deleted s', delete crowded_store (str "m") = Done (deleted, s')
                   ∧ well_formed s')
  ∧ (∃ s', resize crowded_store = Done s' ∧ well_formed s'
           ∧ bucketCount s' = 2 * bucketCount crowded_store).
Proof.
  apply (table_invariant_preserved crowded_store (str "m") (str "x")).
  apply (bool_decide_unpack _). vm_compute. exact I.
Defined.

End Claims.

(** * Further properties of the code *)

(** ** Splitting, searching and the codec *)

Section MoreStrings.
Import JS StringUtils DiskPersistence.

Lemma splitString_loop_nonempty s delim cur : splitString_loop s delim cur ≠ [].
Proof.
  revert cur. induction s as [|c s IH]; intros cur; simpl; [done|].
  destruct (decide ([c] = delim)); [done|apply IH].
Qed.

Lemma join_cons sep l ls : ls ≠ [] → join sep (l :: ls) = l ++ sep ++ join sep ls.
Proof. by destruct ls. Qed.

Lemma splitString_loop_join_back s d cur :
  join [d] (splitString_loop s [d] cur) = cur ++ s.
Proof.
  revert cur. induction s as [|c s IH]; intros cur; simpl.
  - by rewrite app_nil_r.
  - destruct (decide ([c] = [d])) as [Heq|_].
    + injection Heq as ->.
      rewrite join_cons by apply splitString_loop_nonempty. by rewrite IH.
    + rewrite IH. by rewrite <- app_assoc.
Qed.

Lemma splitString_loop_pieces s d cur :
  d ∉ cur → Forall (λ piece, d ∉ piece) (splitString_loop s [d] cur).
Proof.
  revert cur. induction s as [|c s IH]; intros cur Hcur; simpl.
  - by apply Forall_singleton.
  - destruct (decide ([c] = [d])) as [_|Hne].
    + apply Forall_cons. split; [done|]. apply IH, not_elem_of_nil.
    + apply IH. rewrite elem_of_app, list_elem_of_singleton.
      intros [?| ->]; [done|]. by destruct Hne.
Qed.

Lemma splitString_loop_count s d cur :
  length (splitString_loop s [d] cur) = S (length (filter (λ c, c = d) s)).
Proof.
  revert cur. induction s as [|c s IH]; intros cur; simpl; [done|].
  rewrite filter_cons. destruct (decide ([c] = [d])) as [Heq|Hne].
  - injection Heq as ->. rewrite decide_True by done. simpl. by rewrite IH.
  - rewrite decide_False by congruence. apply IH.
Qed.

(** X1. Splitting on a one-character delimiter cuts the string at every
    delimiter and nowhere else: joining the pieces with the delimiter
    gives the string back, no piece holds the delimiter, and there is one
    piece more than there are delimiters (so the empty string gives one
    empty piece). *)
Theorem splitString_pieces (s : jsstring) (d : Z) :
  join [d] (splitString s [d]) = s
  ∧ Forall (λ piece, d ∉ piece) (splitString s [d])
  ∧ length (splitString s [d]) = S (length (filter (λ c, c = d) s)).
Proof.
  unfold splitString. split_and!.
  - apply splitString_loop_join_back.
  - apply splitString_loop_pieces, not_elem_of_nil.
  - apply splitString_loop_count.
Qed.

(** X2. A delimiter that is not exactly one character long never matches,
    each character being compared with the whole delimiter: the string
    comes back as the only piece. *)
Theorem splitString_long_delimiter (s delim : jsstring) :
  length delim ≠ 1%nat → splitString s delim = [s].
Proof.
  intros Hlen. unfold splitString.
  assert (∀ cur, splitString_loop s delim cur = [cur ++ s]) as H; [|apply (H [])].
  induction s as [|c s IH]; intros cur; simpl.
  - by rewrite app_nil_r.
  - destruct (decide ([c] = delim)) as [<-|_]; [done|].
    rewrite IH. by rewrite <- app_assoc.
Qed.

Lemma splitString_long_delimiter_witness :
  splitString (str "a, b, c") (str ", ") = [str "a, b, c"].
Proof.
  apply (splitString_long_delimiter (str "a, b, c") (str ", ")).
  vm_compute. discriminate.
Defined.

Lemma matches_at_prefix s t : matches_at s t = true ↔ t `prefix_of` s.
Proof.
  revert s. induction t as [|x t IH]; intros s; simpl.
  - split; [intros _; apply prefix_nil|done].
  - destruct s as [|c s].
    + split; [done|]. intros H%prefix_length. simpl in H. lia.
    + rewrite andb_true_iff, bool_decide_eq_true, IH. split.
      * intros [-> H]. by apply prefix_cons.
      * intros H. split; [by apply prefix_cons_inv_1 in H|by apply prefix_cons_inv_2 in H].
Qed.

Lemma found_here s t :
  bool_decide (length t ≤ length s)%nat && matches_at s t = true ↔ t `prefix_of` s.
Proof.
  rewrite andb_true_iff, bool_decide_eq_true, matches_at_prefix.
  split; [tauto|]. intros H. split; [by apply prefix_length|done].
Qed.

Lemma indexOfString_from_spec s t i0 :
  (indexOfString_from s t i0 = -1 ∧ 0 ≤ i0 →
     ∀ n, ¬ t `prefix_of` drop n s)
  ∧ (indexOfString_from s t i0 ≠ -1 ∨ i0 < 0 → 0 ≤ i0 →
     ∃ n, indexOfString_from s t i0 = i0 + Z.of_nat n
          ∧ t `prefix_of` drop n s
          ∧ ∀ m, (m < n)%nat → ¬ t `prefix_of` drop m s).
Proof.
  revert i0. induction s as [|c s IH]; intros i0.
  - cbn [indexOfString_from].
    destruct (_ && _) eqn:Hhere.
    + apply found_here in Hhere. split.
      * intros [? ?]. lia.
      * intros _ _. exists 0%nat. split_and!; [lia|done|lia].
    + split.
      * intros _ n Hn. rewrite drop_nil in Hn. apply found_here in Hn. congruence.
      * intros [?|?] ?; [done|lia].
  - cbn [indexOfString_from].
    destruct (_ && _) eqn:Hhere.
    + apply found_here in Hhere. split.
      * intros [? ?]. lia.
      * intros _ _. exists 0%nat. split_and!; [lia|done|lia].
    + assert (¬ t `prefix_of` c :: s) as Hnot
        by (intros H%found_here; congruence).
      destruct (IH (i0 + 1)) as [IHnone IHsome]. split.
      * intros [Hr Hi0] [|n]; [done|]. simpl. apply IHnone. split; [done|lia].
      * intros Hr Hi0. destruct IHsome as (n & Hn & Hpre & Hfirst).
        { destruct Hr as [?|?]; [by left|lia]. }
        { lia. }
        exists (S n). split_and!; [lia|done|].
        intros [|m] Hm; [done|]. simpl. apply Hfirst. lia.
Qed.

(** X3. [indexOfString] returns the position of the first occurrence of
    the searched text, and -1 exactly when the text does not occur; the
    empty text is found at position 0 of any string. *)
Theorem indexOfString_first_occurrence (s t : jsstring) :
  (indexOfString s t = -1 ∧ ∀ n, ¬ t `prefix_of` drop n s)
  ∨ (∃ n, indexOfString s t = Z.of_nat n
          ∧ (n + length t ≤ length s)%nat
          ∧ take (length t) (drop n s) = t
          ∧ ∀ m, (m < n)%nat → ¬ t `prefix_of` drop m s).
Proof.
  unfold indexOfString.
  destruct (indexOfString_from_spec s t 0) as [Hnone Hsome].
  destruct (decide (indexOfString_from s t 0 = -1)) as [Heq|Hne].
  - left. split; [done|]. apply Hnone. split; [done|lia].
  - right. destruct Hsome as (n & Hn & Hpre & Hfirst); [by left|lia|].
    pose proof (prefix_length _ _ Hpre) as Hlen. rewrite length_drop in Hlen.
    exists n. split_and!; [lia| |by destruct Hpre as [r ->]; rewrite take_app_length|done].
    destruct (decide (n ≤ length s)%nat); [lia|]. exfalso.
    apply (Hfirst 0%nat); [lia|].
    destruct t; [apply prefix_nil|simpl in Hlen; lia].
Qed.

End MoreStrings.

Section MoreCodec.
Import JS StringUtils DiskPersistence.

Lemma unescapeString_step c d rest :
  unescapeString (c :: d :: rest)
  = if decide (c = BACKSLASH) then
      if decide (d = LOWER_N) then NEWLINE :: unescapeString rest
      else if decide (d = BACKSLASH) then BACKSLASH :: unescapeString rest
      else c :: unescapeString (d :: rest)
    else if decide (c = COLON ∧ d = COLON) then COLON :: unescapeString rest
    else c :: unescapeString (d :: rest).
Proof. reflexivity. Qed.

Lemma length_unescapeString s : (length (unescapeString s) ≤ length s)%nat.
Proof.
  induction s as [| |c d rest IH1 IH2] using pairwise_ind; [done|done|].
  rewrite unescapeString_step.
  destruct (decide (c = BACKSLASH)) as [_|_].
  - destruct (decide (d = LOWER_N)) as [_|_]; [simpl; lia|].
    destruct (decide (d = BACKSLASH)) as [_|_]; simpl in *; lia.
  - destruct (decide (c = COLON ∧ d = COLON)) as [_|_]; simpl in *; lia.
Qed.

Lemma unescapeString_untouched s :
  BACKSLASH ∉ s → COLON ∉ s → unescapeString s = s.
Proof.
  induction s as [|c s IH]; [done|].
  intros [Hb Hbs]%not_elem_of_cons [Hc Hcs]%not_elem_of_cons.
  rewrite unescapeString_plain by done. by rewrite IH.
Qed.

(** X4. Unescaping leaves a text without backslash and without colon as
    it is, and never makes a text longer.  A backslash before any
    character other than [n] or a backslash, a backslash at the end, and a
    single colon are kept as they are. *)
Theorem unescapeString_lenient :
  (∀ s, BACKSLASH ∉ s → COLON ∉ s → unescapeString s = s)
  ∧ (∀ s, (length (unescapeString s) ≤ length s)%nat)
  ∧ (∀ d rest, d ≠ LOWER_N → d ≠ BACKSLASH →
       unescapeString (BACKSLASH :: d :: rest) = BACKSLASH :: unescapeString (d :: rest))
  ∧ unescapeString [BACKSLASH] = [BACKSLASH]
  ∧ (∀ d rest, d ≠ COLON →
       unescapeString (COLON :: d :: rest) = COLON :: unescapeString (d :: rest))
  ∧ unescapeString [COLON] = [COLON].
Proof.
  split_and!; [apply unescapeString_untouched|apply length_unescapeString| |done| |done].
  - intros d rest Hn Hb. rewrite unescapeString_step.
    destruct (decide (BACKSLASH = BACKSLASH)) as [_|]; [|done].
    destruct (decide (d = LOWER_N)); [done|]. by destruct (decide (d = BACKSLASH)).
  - intros d rest Hd. rewrite unescapeString_step.
    destruct (decide (COLON = BACKSLASH)) as [|_]; [done|].
    by destruct (decide (COLON = COLON ∧ d = COLON)) as [[_ ?]|_].
Qed.

Lemma unescapeString_lenient_witness :
  unescapeString (str "plain text") = str "plain text"
  ∧ unescapeString (str "a\tb") = str "a\tb".
Proof.
  split.
  - apply (proj1 unescapeString_lenient);
      apply (bool_decide_unpack _); vm_compute; exact I.
  - change (str "a\tb") with ([97] ++ BACKSLASH :: 116 :: [98]).
    cbn [app]. rewrite unescapeString_plain by done.
    by rewrite (proj1 (proj2 (proj2 unescapeString_lenient)) 116 [98]).
Defined.

Lemma length_escapeChar c : (1 ≤ length (escapeChar c) ≤ 2)%nat.
Proof. unfold escapeChar. repeat destruct (decide _); simpl; lia. Qed.

(** X5. Two different strings never escape to the same text; the escaped
    text is at least as long as the string and at most twice as long, and
    holds no raw newline; a string without backslash, colon and newline
    is its own escaped text. *)
Theorem escapeString_faithful :
  (∀ s t, escapeString s = escapeString t → s = t)
  ∧ (∀ s, (length s ≤ length (escapeString s) ≤ 2 * length s)%nat)
  ∧ (∀ s, NEWLINE ∉ escapeString s)
  ∧ (∀ s, BACKSLASH ∉ s → COLON ∉ s → NEWLINE ∉ s → escapeString s = s).
Proof.
  split_and!.
  - intros s t H. by rewrite <- (unescape_escape s), <- (unescape_escape t), H.
  - induction s as [|c s IH]; [simpl; lia|].
    rewrite escapeString_cons, length_app. pose proof (length_escapeChar c).
    simpl. lia.
  - apply escapeString_no_newline.
  - induction s as [|c s IH]; [done|].
    intros [Hb Hbs]%not_elem_of_cons [Hc Hcs]%not_elem_of_cons [Hn Hns]%not_elem_of_cons.
    rewrite escapeString_cons, IH by done. unfold escapeChar.
    destruct (decide (c = COLON)); [done|]. destruct (decide (c = NEWLINE)); [done|].
    by destruct (decide (c = BACKSLASH)).
Qed.

Lemma escapeString_faithful_witness :
  escapeString (str "user1_name") = str "user1_name".
Proof.
  apply (proj2 (proj2 (proj2 escapeString_faithful)));
    apply (bool_decide_unpack _); vm_compute; exact I.
Defined.

End MoreCodec.

(** ** The file *)

Section MorePersistence.
Import JS StringUtils DiskPersistence.

Lemma lines_no_newline (es : list entry) : Forall (λ l, NEWLINE ∉ l) (line <$> es).
Proof. apply Forall_fmap, Forall_true. intros e. apply line_no_newline. Qed.

(** X6. The saved text has exactly one line for each entry of the table,
    in bucket order, the line of an entry being its escaped key, a colon
    and its escaped value; an empty table is saved as the empty text, which
    splits into one empty line.  Whatever was in the file before is gone. *)
Theorem save_one_line_per_entry disk (buckets : list (list entry)) :
  file (save disk buckets) = Some (content buckets)
  ∧ splitString (content buckets) [NEWLINE]
    = (if decide (mjoin buckets = []) then [[]] else lines buckets)
  ∧ length (lines buckets) = length (mjoin buckets)
  ∧ ∀ i e, mjoin buckets !! i = Some e →
      lines buckets !! i
      = Some (escapeString (key e) ++ [COLON] ++ escapeValue (value e)).
Proof.
  split_and!; [done| |apply length_fmap|].
  - unfold content, lines. destruct (mjoin buckets) as [|e es]; [done|].
    rewrite decide_False by done. rewrite fmap_cons. apply splitString_join.
    rewrite <- fmap_cons. apply lines_no_newline.
  - intros i e Hi. unfold lines. by rewrite list_lookup_fmap, Hi.
Qed.

Lemma save_one_line_per_entry_witness :
  lines [[Entry (str "a") (VStr (str "1"))]; []; [Entry (str "b") (VStr (str "x:y"))]]
    !! 1%nat
  = Some (escapeString (key (Entry (str "b") (VStr (str "x:y")))) ++ [COLON]
          ++ escapeValue (value (Entry (str "b") (VStr (str "x:y"))))).
Proof.
  apply (proj2 (proj2 (proj2 (save_one_line_per_entry (DiskPersistence.new None)
           [[Entry (str "a") (VStr (str "1"))]; [];
            [Entry (str "b") (VStr (str "x:y"))]])))).
  reflexivity.
Defined.

Lemma trimStart_subset s x : x ∈ trimStart s → x ∈ s.
Proof.
  induction s as [|c s IH]; [done|]. simpl.
  destruct (is_whitespace c); [|done]. intros H. right. by apply IH.
Qed.

Lemma trim_subset s x : x ∈ trim s → x ∈ s.
Proof.
  unfold trim, trimEnd. intros H%trimStart_subset.
  rewrite elem_of_reverse in H. apply trimStart_subset in H.
  by rewrite elem_of_reverse in H.
Qed.

Lemma indexOfString_from_absent s i :
  COLON ∉ s → indexOfString_from s [COLON] i = -1.
Proof.
  revert i. induction s as [|c s IH]; intros i Hs; [done|].
  apply not_elem_of_cons in Hs as [Hc Hs].
  cbn [indexOfString_from matches_at].
  rewrite (bool_decide_eq_false_2 (c = COLON)) by congruence.
  rewrite andb_false_l, andb_false_r. by apply IH.
Qed.

Lemma load_line_no_colon raw : COLON ∉ raw → load_line raw = None.
Proof.
  intros Hraw. unfold load_line. cbv zeta.
  destruct (decide (trim raw = [])); [done|].
  unfold indexOfString. rewrite indexOfString_from_absent.
  - by destruct (decide (0 < -1)).
  - intros H. by apply Hraw, trim_subset.
Qed.

Lemma join_subset sep (ls : list jsstring) l x : l ∈ ls → x ∈ l → x ∈ join sep ls.
Proof.
  induction ls as [|l' ls IH]; [by intros ?%elem_of_nil|].
  intros [->|Hin]%elem_of_cons Hx.
  - destruct ls; [done|]. rewrite join_cons by done. apply elem_of_app. by left.
  - destruct ls as [|l'' ls]; [by apply elem_of_nil in Hin|].
    rewrite join_cons by done. rewrite !elem_of_app. right. right. by apply IH.
Qed.

(** X7. A line without a colon gives no entry, and a file without any
    colon loads as no entries.  A line is cut at its first colon: when the
    part before it is not empty, the entry has the unescaped part before
    as its key and the unescaped rest, further colons included, as its
    value. *)
Theorem load_line_cases :
  (∀ raw, COLON ∉ raw → load_line raw = None)
  ∧ (∀ content, COLON ∉ content → parse content = [])
  ∧ (∀ k v, k ≠ [] → COLON ∉ k → trim (k ++ COLON :: v) = k ++ COLON :: v →
       load_line (k ++ COLON :: v)
       = Some (Entry (unescapeString k) (VStr (unescapeString v)))).
Proof.
  split_and!.
  - apply load_line_no_colon.
  - intros content Hc. unfold parse.
    assert (Forall (λ raw, load_line raw = None) (splitString content [NEWLINE])) as Hall.
    { apply Forall_forall. intros raw Hraw. apply load_line_no_colon.
      intros Hin. apply Hc.
      pose proof (splitString_loop_join_back content NEWLINE []) as Hjoin.
      simpl in Hjoin. rewrite <- Hjoin. by eapply join_subset. }
    induction Hall as [|raw raws Hraw _ IH]; [done|].
    change (omap load_line (raw :: raws))
      with (match load_line raw with
            | Some y => y :: omap load_line raws
            | None => omap load_line raws
            end).
    by rewrite Hraw.
  - intros k v Hk Hcolon Htrim. unfold load_line. cbv zeta. rewrite Htrim.
    destruct (decide (k ++ COLON :: v = [])) as [Hnil|_].
    { by apply app_eq_nil in Hnil as [? _]. }
    unfold indexOfString. rewrite indexOfString_from_colon by done.
    destruct (decide (0 < 0 + Z.of_nat (length k))) as [_|Hlen].
    + unfold substring_to, substring_from.
      replace (Z.to_nat (0 + Z.of_nat (length k))) with (length k) by lia.
      replace (Z.to_nat (0 + Z.of_nat (length k) + 1)) with (S (length k)) by lia.
      rewrite take_app_length, (cons_middle COLON), app_assoc.
      by rewrite drop_app_length' by (rewrite length_app; simpl; lia).
    + destruct k; [done|]. simpl in Hlen. lia.
Qed.

Lemma load_line_cases_witness :
  load_line (str "no separator here") = None
  ∧ load_line (str "a:b:c") = Some (Entry (str "a") (VStr (str "b:c"))).
Proof.
  split.
  - apply (proj1 load_line_cases). apply (bool_decide_unpack _). vm_compute. exact I.
  - apply (proj2 (proj2 load_line_cases) (str "a") (str "b:c"));
      [discriminate|apply (bool_decide_unpack _); vm_compute; exact I|reflexivity].
Defined.

End MorePersistence.

(** ** Buckets and the store *)

Section MoreStore.
Import HashMapStore.

Abbreviation bs s := (BucketManager.buckets (bucketManager s)).
Abbreviation idx s k := (Z.to_nat (HashFunction.hash (hashFunction s) k)).

Implicit Types (s : HashMapStore.t) (k v : jsstring).

(** [resize] reads from the object of [getAll] only names that were
    assigned, or ["__proto__"]. *)
Lemma getAllKeys_own (bm : BucketManager.t) k :
  k ∈ BucketManager.getAllKeys bm →
  k = JS.PROTO ∨ is_Some (BucketManager.getAll bm !! k).
Proof.
  unfold BucketManager.getAllKeys, BucketManager.getAll.
  induction (BucketManager.entries bm) as [|e es IH] using rev_ind.
  - by intros ?%elem_of_nil.
  - intros H. destruct (decide (k = JS.PROTO)) as [|Hk]; [by left|]. right.
    rewrite foldl_snoc. unfold JS.obj_set at 1.
    rewrite fmap_app, elem_of_app in H. simpl in H.
    destruct (decide (key e = JS.PROTO)) as [Hp|_].
    + destruct H as [H|H%list_elem_of_singleton]; [|congruence].
      by destruct (IH H).
    + destruct (decide (key e = k)) as [<-|Hne].
      * rewrite lookup_insert_eq. by eexists.
      * rewrite lookup_insert_ne by done.
        destruct H as [H|H%list_elem_of_singleton]; [|congruence].
        by destruct (IH H).
Qed.

Lemma bucket_at_bounds (bm : BucketManager.t) (i : Z) :
  (0 ≤ i < Z.of_nat (length (BucketManager.buckets bm)) →
     ∃ b, BucketManager.buckets bm !! Z.to_nat i = Some b
          ∧ BucketManager.bucket_at bm i = Done b)
  ∧ (¬ 0 ≤ i < Z.of_nat (length (BucketManager.buckets bm)) →
     BucketManager.bucket_at bm i = TypeError
     ∧ BucketManager.getBucket bm i = None).
Proof.
  unfold BucketManager.bucket_at, BucketManager.getBucket, JS.at_index. split.
  - intros Hi. destruct (lookup_lt_is_Some_2 (BucketManager.buckets bm) (Z.to_nat i))
      as [b Hb]; [lia|].
    exists b. destruct (decide (0 ≤ i)); [|lia]. by rewrite Hb.
  - intros Hi. destruct (decide (0 ≤ i)); [|done].
    by rewrite lookup_ge_None_2 by lia.
Qed.

(** X8. The bucket methods throw exactly when the index is outside the
    bucket array: for an index below zero or not below the number of
    buckets, [setInBucket], [getFromBucket], [hasInBucket] and
    [deleteFromBucket] end in a TypeError and [getBucket] gives
    [undefined]; for an index inside, none of them throws. *)
Theorem bucket_methods_bounds (bm : BucketManager.t) (i : Z) (k : jsstring) (v : jsvalue) :
  let inside := 0 ≤ i < Z.of_nat (length (BucketManager.buckets bm)) in
  (inside ↔ BucketManager.setInBucket bm i k v ≠ TypeError)
  ∧ (inside ↔ BucketManager.getFromBucket bm i k ≠ TypeError)
  ∧ (inside ↔ BucketManager.hasInBucket bm i k ≠ TypeError)
  ∧ (inside ↔ BucketManager.deleteFromBucket bm i k ≠ TypeError)
  ∧ (inside ↔ BucketManager.getBucket bm i ≠ None).
Proof.
  intros inside. destruct (bucket_at_bounds bm i) as [Hin Hout].
  unfold BucketManager.setInBucket, BucketManager.getFromBucket,
    BucketManager.hasInBucket, BucketManager.deleteFromBucket.
  destruct (decide inside) as [Hi|Hi].
  - destruct (Hin Hi) as (b & Hb & ->). simpl.
    assert (BucketManager.getBucket bm i ≠ None) as Hget.
    { unfold BucketManager.getBucket, JS.at_index.
      destruct (decide (0 ≤ i)); [|unfold inside in Hi; lia]. by rewrite Hb. }
    split_and!; (split; [intros _|done]); try done.
    by destruct (BucketManager.delete_loop b k).
  - destruct (Hout Hi) as [-> Hget]. simpl.
    rewrite Hget. split_and!; (split; [intros ?; by destruct Hi|intros H; by destruct H]).
Qed.

Lemma bucket_methods_bounds_witness :
  BucketManager.getFromBucket (BucketManager.new 16) 16 (str "k") = TypeError
  ∧ BucketManager.getFromBucket (BucketManager.new 16) 15 (str "k") ≠ TypeError.
Proof.
  pose proof (bucket_methods_bounds (BucketManager.new 16) 16 (str "k") (VStr (str "v")))
    as (_ & H16 & _).
  pose proof (bucket_methods_bounds (BucketManager.new 16) 15 (str "k") (VStr (str "v")))
    as (_ & H15 & _).
  split.
  - destruct (BucketManager.getFromBucket (BucketManager.new 16) 16 (str "k")) eqn:E;
      [|done].
    exfalso. assert (0 ≤ 16 < Z.of_nat (length (BucketManager.buckets (BucketManager.new 16))))
      as Hbad by (by apply H16). vm_compute in Hbad. destruct Hbad as [_ Hbad].
    discriminate.
  - apply H15. vm_compute. split; [discriminate|reflexivity].
Defined.

Lemma mem_of_get s k :
  well_formed s → k ∈ getAllKeys s ↔ get s k ≠ Done None.
Proof.
  intros Hwf. rewrite (get_None s k Hwf).
  destruct (decide (k ∈ getAllKeys s)); tauto.
Qed.

Lemma set_keys s k v s' :
  well_formed s → set s k v = Done s' →
  well_formed s' ∧ ∀ k', k' ∈ getAllKeys s' ↔ k' = k ∨ k' ∈ getAllKeys s.
Proof.
  intros Hwf Hset. destruct (set_spec s k v Hwf) as (s0 & Hrun & Hwf' & _ & Hget & _).
  assert (s0 = s') as -> by congruence. split; [done|]. intros k'.
  rewrite (mem_of_get s' k' Hwf'), (mem_of_get s k' Hwf), Hget. unfold after_set.
  destruct (decide (k' = JS.PROTO ∧ _)) as [(_ & _ & Hin)|_].
  { split; [intros _|done]. apply elem_of_cons in Hin as [?|Hin]; [by left|right].
    by apply (mem_of_get s k' Hwf). }
  destruct (decide (k' = k)) as [->|Hne]; [split; [by left|done]|].
  split; [by right|]. by intros [?|?].
Qed.

Lemma after_set_other s k v s' k' :
  k' ≠ k →
  after_set s k v s' k'
  = if decide (k' = JS.PROTO ∧ bucketCount s' ≠ bucketCount s ∧ k' ∈ getAllKeys s)
    then Done (Some VObjectPrototype) else get s k'.
Proof.
  intros Hne. unfold after_set. rewrite (decide_False (P := k' = k)) by done.
  destruct (decide (k' = JS.PROTO ∧ _ ∧ k' ∈ k :: _)) as [(Hp & Hbc & Hin)|Hno].
  - rewrite decide_True; [done|]. split_and!; [done|done|].
    by apply elem_of_cons in Hin as [?|?].
  - rewrite decide_False; [done|]. intros (Hp & Hbc & Hin). apply Hno.
    split_and!; [done|done|by right].
Qed.

Lemma after_set_plain s k v s' k' :
  k' ≠ JS.PROTO ∨ bucketCount s' = bucketCount s →
  after_set s k v s' k' = if decide (k' = k) then Done (Some (VStr v)) else get s k'.
Proof.
  intros H. unfold after_set. rewrite (decide_False (P := _ ∧ _)); [done|].
  intros (Hp & Hbc & _). by destruct H.
Qed.

Lemma set_count s k v s' :
  well_formed s → set s k v = Done s' →
  length (getAllKeys s')
  = if decide (k ∈ getAllKeys s) then length (getAllKeys s) else S (length (getAllKeys s)).
Proof.
  intros Hwf Hset. destruct (set_keys s k v s' Hwf Hset) as [Hwf' Hmem].
  pose proof (NoDup_getAllKeys s (proj2 Hwf)) as Hnd.
  pose proof (NoDup_getAllKeys s' (proj2 Hwf')) as Hnd'.
  destruct (decide (k ∈ getAllKeys s)) as [Hk|Hk].
  - apply Permutation_length, NoDup_Permutation; [done|done|].
    intros k'. rewrite Hmem. split; [by intros [->|?]|by right].
  - change (S (length (getAllKeys s))) with (length (k :: getAllKeys s)).
    apply Permutation_length, NoDup_Permutation; [done|by apply NoDup_cons|].
    intros k'. by rewrite Hmem, elem_of_cons.
Qed.

(** X9. What is set can be read: on a well-formed store [set(k, v)] ends
    without throwing; afterwards [has(k)] is true, the keys are those of
    before together with [k], and the bucket count is the one of before or
    its double.  For every key other than ["__proto__"], and for that key
    too when the bucket count did not change, [get(k)] is the string [v]
    and every other key reads as before.  When the bucket count changed,
    the key ["__proto__"], if it is in the table, reads as
    [Object.prototype]. *)
Theorem set_then_get s k v :
  well_formed s →
  ∃ s', set s k v = Done s'
    ∧ has s' k = Done true
    ∧ (k ≠ JS.PROTO ∨ bucketCount s' = bucketCount s → get s' k = Done (Some (VStr v)))
    ∧ (∀ k', k' ≠ k → k' ≠ JS.PROTO ∨ bucketCount s' = bucketCount s →
         get s' k' = get s k')
    ∧ (bucketCount s' ≠ bucketCount s → JS.PROTO ∈ getAllKeys s' →
         get s' JS.PROTO = Done (Some VObjectPrototype))
    ∧ (∀ k', k' ∈ getAllKeys s' ↔ k' = k ∨ k' ∈ getAllKeys s)
    ∧ (bucketCount s' = bucketCount s ∨ bucketCount s' = 2 * bucketCount s).
Proof.
  intros Hwf. destruct (set_spec s k v Hwf) as (s' & Hset & Hwf' & Hbc & Hget & _).
  destruct (set_keys s k v s' Hwf Hset) as [_ Hmem].
  exists s'. split_and!; [done| | | | |done|].
  - rewrite (has_getAllKeys s' k Hwf'). f_equal. apply bool_decide_eq_true_2.
    apply Hmem. by left.
  - intros H. rewrite Hget, after_set_plain by done. by rewrite decide_True.
  - intros k' Hne H. rewrite Hget, after_set_plain by done. by rewrite decide_False.
  - intros Hgrown Hin. rewrite Hget. unfold after_set. rewrite decide_True; [done|].
    split_and!; [done|done|]. apply elem_of_cons. by apply Hmem.
  - destruct (bool_decide _) in Hbc; lia.
Qed.

Lemma set_then_get_witness :
  ∃ s', set sample_store (str "city") (str "Paris") = Done s'
    ∧ has s' (str "city") = Done true
    ∧ (str "city" ≠ JS.PROTO ∨ bucketCount s' = bucketCount sample_store →
         get s' (str "city") = Done (Some (VStr (str "Paris"))))
    ∧ (∀ k', k' ≠ str "city" →
         k' ≠ JS.PROTO ∨ bucketCount s' = bucketCount sample_store →
         get s' k' = get sample_store k')
    ∧ (bucketCount s' ≠ bucketCount sample_store → JS.PROTO ∈ getAllKeys s' →
         get s' JS.PROTO = Done (Some VObjectPrototype))
    ∧ (∀ k', k' ∈ getAllKeys s' ↔ k' = str "city" ∨ k' ∈ getAllKeys sample_store)
    ∧ (bucketCount s' = bucketCount sample_store
       ∨ bucketCount s' = 2 * bucketCount sample_store).
Proof.
  apply (set_then_get sample_store (str "city") (str "Paris")).
  apply (bool_decide_unpack _). vm_compute. exact I.
Defined.

(** X10. Every [set] writes the file exactly once, and what it writes is
    the whole table as it is after the call, after a resize too; the
    previous content of the file plays no part. *)
Theorem set_writes_through s k v :
  well_formed s →
  ∃ s', set s k v = Done s'
    ∧ DiskPersistence.file (diskPersistence s')
      = Some (DiskPersistence.content (bs s'))
    ∧ DiskPersistence.writeCount (diskPersistence s')
      = S (DiskPersistence.writeCount (diskPersistence s)).
Proof.
  intros Hwf. destruct (set_spec s k v Hwf) as (s' & Hset & _ & _ & _ & Hdisk).
  exists s'. by rewrite Hdisk.
Qed.

Lemma set_writes_through_witness :
  ∃ s', set crowded_store (str "m") (str "x") = Done s'
    ∧ DiskPersistence.file (diskPersistence s')
      = Some (DiskPersistence.content (bs s'))
    ∧ DiskPersistence.writeCount (diskPersistence s')
      = S (DiskPersistence.writeCount (diskPersistence crowded_store)).
Proof.
  apply (set_writes_through crowded_store (str "m") (str "x")).
  apply (bool_decide_unpack _). vm_compute. exact I.
Defined.

(** X11. The ways of reading agree on a well-formed store: [has(k)] is
    true exactly when [k] is among [getAllKeys()], [get(k)] is
    [undefined] exactly when it is not, and no key is listed twice.  The
    object [getAll()] returns has, for every key other than ["__proto__"],
    an own property exactly when the key is in the table, with the value
    [get] returns; it never has an own property ["__proto__"], also when
    that key is in the table. *)
Theorem readers_agree s k :
  well_formed s →
  has s k = Done (bool_decide (k ∈ getAllKeys s))
  ∧ (get s k = Done None ↔ k ∉ getAllKeys s)
  ∧ (k ≠ JS.PROTO → get s k = Done (getAll s !! k))
  ∧ getAll s !! JS.PROTO = None
  ∧ NoDup (getAllKeys s)
  ∧ (∀ k', k' ≠ JS.PROTO → k' ∈ getAllKeys s ↔ is_Some (getAll s !! k')).
Proof.
  intros Hwf. split_and!.
  - by apply has_getAllKeys.
  - by apply get_None.
  - by apply get_getAll.
  - apply getAll_fold_proto.
  - apply NoDup_getAllKeys, Hwf.
  - intros k' Hk'. rewrite (mem_of_get s k' Hwf), (get_getAll s k' Hwf Hk').
    unfold getAll. destruct (BucketManager.getAll (bucketManager s) !! k') as [x|].
    + split; [by eexists|done].
    + split; [done|]. by intros [? ?].
Qed.

Lemma readers_agree_witness :
  has proto_store JS.PROTO = Done (bool_decide (JS.PROTO ∈ getAllKeys proto_store))
  ∧ (get proto_store JS.PROTO = Done None ↔ JS.PROTO ∉ getAllKeys proto_store)
  ∧ (JS.PROTO ≠ JS.PROTO → get proto_store JS.PROTO = Done (getAll proto_store !! JS.PROTO))
  ∧ getAll proto_store !! JS.PROTO = None
  ∧ NoDup (getAllKeys proto_store)
  ∧ (∀ k', k' ≠ JS.PROTO →
       k' ∈ getAllKeys proto_store ↔ is_Some (getAll proto_store !! k')).
Proof.
  apply (readers_agree proto_store JS.PROTO).
  apply (bool_decide_unpack _). vm_compute. exact I.
Defined.

(** X12. On a key that is in the table [update] and [set] do the same:
    they end in the same store, file included. *)
Theorem update_is_set_when_present s k v :
  well_formed s → k ∈ getAllKeys s →
  ∃ s', set s k v = Done s' ∧ update s k v = Done (true, s').
Proof.
  intros Hwf Hk. destruct (set_existing s k v Hwf Hk) as (Hset & _).
  destruct (update_spec s k v Hwf) as [Hupd _].
  eexists. split; [exact Hset|by apply Hupd].
Qed.

Lemma update_is_set_when_present_witness :
  ∃ s', set sample_store (str "name") (str "Jane") = Done s'
        ∧ update sample_store (str "name") (str "Jane") = Done (true, s').
Proof.
  apply (update_is_set_when_present sample_store (str "name") (str "Jane"));
    apply (bool_decide_unpack _); vm_compute; exact I.
Defined.

(** X13. Setting a key that was not in the table and deleting it again:
    the delete returns [true] and the keys are those of the start.  Every
    key reads as at the start, but for one case: when the write doubled
    the bucket count and the key ["__proto__"] was in the table, that
    key reads as [Object.prototype] afterwards. *)
Theorem set_then_delete s k v :
  well_formed s → k ∉ getAllKeys s →
  ∃ s1 s2, set s k v = Done s1 ∧ delete s1 k = Done (true, s2)
    ∧ (∀ k', get s2 k'
             = if decide (k' = JS.PROTO ∧ bucketCount s1 ≠ bucketCount s
                          ∧ k' ∈ getAllKeys s)
               then Done (Some VObjectPrototype) else get s k')
    ∧ (∀ k', k' ≠ JS.PROTO ∨ bucketCount s1 = bucketCount s → get s2 k' = get s k')
    ∧ (∀ k', k' ∈ getAllKeys s2 ↔ k' ∈ getAllKeys s).
Proof.
  intros Hwf Hk. destruct (set_spec s k v Hwf) as (s1 & Hset & Hwf1 & _ & Hget1 & _).
  destruct (set_keys s k v s1 Hwf Hset) as [_ Hmem1].
  destruct (delete_present s1 k Hwf1) as (s2 & Hdel & Hwf2 & Hgone & Hget2 & _).
  { apply Hmem1. by left. }
  assert (∀ k', get s2 k'
             = if decide (k' = JS.PROTO ∧ bucketCount s1 ≠ bucketCount s
                          ∧ k' ∈ getAllKeys s)
               then Done (Some VObjectPrototype) else get s k') as Hget.
  { intros k'. destruct (decide (k' = k)) as [->|Hne].
    - rewrite (proj2 (get_None s2 k Hwf2) Hgone).
      rewrite decide_False by (by intros (_ & _ & ?)). symmetry. by apply get_None.
    - rewrite (Hget2 k' Hne), Hget1. by apply after_set_other. }
  exists s1, s2. split_and!; [done|done|done| |].
  - intros k' H. rewrite Hget. rewrite decide_False; [done|].
    intros (Hp & Hbc & _). by destruct H.
  - intros k'. destruct (decide (k' = k)) as [->|Hne]; [done|].
    rewrite (mem_of_get s2 k' Hwf2), (Hget2 k' Hne), <- (mem_of_get s1 k' Hwf1), Hmem1.
    split; [by intros [?|?]|by right].
Qed.

Lemma set_then_delete_witness :
  ∃ s1 s2, set proto_store (str "m") (str "x") = Done s1
    ∧ delete s1 (str "m") = Done (true, s2)
    ∧ (∀ k', get s2 k'
             = if decide (k' = JS.PROTO ∧ bucketCount s1 ≠ bucketCount proto_store
                          ∧ k' ∈ getAllKeys proto_store)
               then Done (Some VObjectPrototype) else get proto_store k')
    ∧ (∀ k', k' ≠ JS.PROTO ∨ bucketCount s1 = bucketCount proto_store →
             get s2 k' = get proto_store k')
    ∧ (∀ k', k' ∈ getAllKeys s2 ↔ k' ∈ getAllKeys proto_store).
Proof.
  apply (set_then_delete proto_store (str "m") (str "x"));
    apply (bool_decide_unpack _); vm_compute; exact I.
Defined.

Lemma reachable_capacity s :
  reachable s → ∃ n : nat, bucketCount s = 16 * 2 ^ Z.of_nat n.
Proof.
  induction 1 as [disk s Hnew|s k v s' Hs [n IH] Hset|s k v u s' Hs [n IH] Hupd
                 |s k d s' Hs [n IH] Hdel].
  - destruct (new_well_formed disk) as (s0 & Hrun & _ & Hbc).
    exists 0%nat. assert (s0 = s) as <- by congruence. by rewrite Hbc.
  - apply reachable_well_formed in Hs.
    destruct (set_spec s k v Hs) as (s0 & Hrun & _ & Hbc & _).
    assert (s0 = s') as -> by congruence.
    destruct (bool_decide _) in Hbc.
    + exists (S n). rewrite Hbc, IH, Nat2Z.inj_succ, Z.pow_succ_r; lia.
    + exists n. by rewrite Hbc.
  - apply reachable_well_formed in Hs. destruct (update_spec s k v Hs) as [Hin Hout].
    exists n. destruct (decide (k ∈ getAllKeys s)) as [Hk|Hk].
    + rewrite (Hin Hk) in Hupd. by injection Hupd as _ <-.
    + rewrite (Hout Hk) in Hupd. by injection Hupd as _ <-.
  - apply reachable_well_formed in Hs.
    exists n. destruct (decide (k ∈ getAllKeys s)) as [Hk|Hk].
    + destruct (delete_present s k Hs Hk) as (s0 & Hrun & _ & _ & _ & Hbc & _).
      assert (s0 = s') as -> by congruence. by rewrite Hbc.
    + rewrite (delete_absent s k Hs Hk) in Hdel. by injection Hdel as _ <-.
Qed.

(** X14. A store made by the constructor and changed by [set], [update]
    and [delete] always has 16 buckets times a power of two, never fewer
    than 16; its bucket array has that length, and it is well formed, so
    none of its operations throws. *)
Theorem capacity_is_16_times_power_of_two s :
  reachable s →
  (∃ n : nat, bucketCount s = 16 * 2 ^ Z.of_nat n)
  ∧ 16 ≤ bucketCount s
  ∧ Z.of_nat (length (bs s)) = bucketCount s
  ∧ well_formed s.
Proof.
  intros Hs. pose proof (reachable_well_formed s Hs) as Hwf.
  destruct (reachable_capacity s Hs) as [n Hn].
  split_and!; [by exists n| |apply Hwf|done].
  rewrite Hn. pose proof (Z.pow_pos_nonneg 2 (Z.of_nat n)). lia.
Qed.

Lemma capacity_is_16_times_power_of_two_witness :
  (∃ n : nat, bucketCount sample_store = 16 * 2 ^ Z.of_nat n)
  ∧ 16 ≤ bucketCount sample_store
  ∧ Z.of_nat (length (bs sample_store)) = bucketCount sample_store
  ∧ well_formed sample_store.
Proof.
  apply (capacity_is_16_times_power_of_two sample_store).
  apply (reach_set (run_or empty_store (set empty_store (str "name") (str "John")))
           (str "age") (str "25")); [|vm_compute; reflexivity].
  apply (reach_set empty_store (str "name") (str "John")); [|vm_compute; reflexivity].
  apply (reach_new (DiskPersistence.new None)). reflexivity.
Defined.

(** X15. A store that is not over the load-factor threshold is not over
    it after a [set] either: the doubling brings it back under.  (With at
    least two buckets, which every store made by the constructor has.) *)
Theorem set_keeps_load_factor s k v :
  well_formed s → 2 ≤ bucketCount s → shouldResize s = false →
  ∃ s', set s k v = Done s' ∧ shouldResize s' = false.
Proof.
  intros Hwf Hbc Hunder.
  destruct (set_spec s k v Hwf) as (s' & Hset & _ & Hbc' & _).
  pose proof (set_count s k v s' Hwf Hset) as Hcount.
  exists s'. split; [done|]. unfold shouldResize in *.
  change (BucketManager.getAllKeys (bucketManager s')) with (getAllKeys s').
  change (BucketManager.getAllKeys (bucketManager s)) with (getAllKeys s) in Hunder.
  apply bool_decide_eq_false in Hunder. apply bool_decide_eq_false.
  rewrite Hcount, Hbc'. destruct (decide (k ∈ getAllKeys s)) as [Hk|Hk].
  - rewrite bool_decide_eq_false_2 by tauto. done.
  - destruct (decide (3 * bucketCount s < 4 * (Z.of_nat (length (getAllKeys s)) + 1))).
    + rewrite bool_decide_eq_true_2 by done. lia.
    + rewrite bool_decide_eq_false_2 by tauto. lia.
Qed.

Lemma set_keeps_load_factor_witness :
  ∃ s', set crowded_store (str "m") (str "x") = Done s' ∧ shouldResize s' = false.
Proof.
  apply (set_keeps_load_factor crowded_store (str "m") (str "x")).
  - apply (bool_decide_unpack _). vm_compute. exact I.
  - vm_compute. discriminate.
  - reflexivity.
Defined.

(** X16. A resize does not throw, keeps the keys up to their order, does
    not touch the file and doubles the bucket count.  Every key other than
    ["__proto__"] reads as before; the key ["__proto__"], when it is in
    the table, reads as [Object.prototype] afterwards, whatever its value
    was. *)
Theorem resize_keeps_contents s :
  well_formed s →
  ∃ s', resize s = Done s'
    ∧ (∀ k, k ≠ JS.PROTO → get s' k = get s k)
    ∧ get s' JS.PROTO
      = (if decide (JS.PROTO ∈ getAllKeys s) then Done (Some VObjectPrototype)
         else Done None)
    ∧ getAllKeys s' ≡ₚ getAllKeys s
    ∧ diskPersistence s' = diskPersistence s
    ∧ bucketCount s' = 2 * bucketCount s.
Proof.
  intros Hwf. destruct (resize_spec s Hwf) as (s' & Hrun & Hwf' & Hbc & _ & Hdisk & Hget).
  exists s'. split_and!; [done| | | |done|lia].
  - intros k Hk. rewrite Hget. rewrite decide_False; [done|]. by intros [? _].
  - rewrite Hget. destruct (decide (JS.PROTO ∈ getAllKeys s)) as [Hin|Hout].
    + by rewrite decide_True.
    + rewrite decide_False by (by intros [_ ?]). by apply get_None.
  - apply NoDup_Permutation; [apply NoDup_getAllKeys, Hwf'|apply NoDup_getAllKeys, Hwf|].
    intros k. rewrite (mem_of_get s' k Hwf'), Hget.
    destruct (decide (k = JS.PROTO ∧ k ∈ getAllKeys s)) as [[_ Hin]|_]; [done|].
    by rewrite <- (mem_of_get s k Hwf).
Qed.

Lemma resize_keeps_contents_witness :
  ∃ s', resize proto_store = Done s'
    ∧ (∀ k, k ≠ JS.PROTO → get s' k = get proto_store k)
    ∧ get s' JS.PROTO
      = (if decide (JS.PROTO ∈ getAllKeys proto_store) then Done (Some VObjectPrototype)
         else Done None)
    ∧ getAllKeys s' ≡ₚ getAllKeys proto_store
    ∧ diskPersistence s' = diskPersistence proto_store
    ∧ bucketCount s' = 2 * bucketCount proto_store.
Proof.
  apply (resize_keeps_contents proto_store).
  apply (bool_decide_unpack _). vm_compute. exact I.
Defined.

(** X26. When [set] adds a key that was not in the table and the entries
    then exceed three quarters of the bucket count, the bucket count
    doubles, once.  Afterwards every key other than ["__proto__"] reads
    back with its last value (the new key with its own); the key
    ["__proto__"], when it is the new key or was in the table, reads as
    [Object.prototype]; and [getBucketForKey] gives, for every key, the
    index under the doubled capacity, which is where the key is stored. *)
Theorem set_new_key_resizes s k v :
  well_formed s → k ∉ getAllKeys s →
  3 * bucketCount s < 4 * (Z.of_nat (length (getAllKeys s)) + 1) →
  ∃ s', set s k v = Done s'
    ∧ bucketCount s' = 2 * bucketCount s
    ∧ Z.of_nat (length (bs s')) = 2 * bucketCount s
    ∧ (∀ k', k' ≠ JS.PROTO →
         get s' k' = if decide (k' = k) then Done (Some (VStr v)) else get s k')
    ∧ get s' JS.PROTO
      = (if decide (JS.PROTO ∈ k :: getAllKeys s) then Done (Some VObjectPrototype)
         else Done None)
    ∧ (∀ k', getBucketForKey s' k'
             = HashFunction.hash (HashFunction.new (2 * bucketCount s)) k')
    ∧ (∀ k' i, key_in_bucket s' k' i → getBucketForKey s' k' = Z.of_nat i).
Proof.
  intros Hwf Hk Hover.
  destruct (set_spec s k v Hwf) as (s' & Hset & Hwf' & Hbc & Hget & _).
  rewrite bool_decide_eq_true_2 in Hbc by done.
  pose proof Hwf' as [(Hpos & Hhf & _ & Hlen) Hpl'].
  pose proof Hwf as [(Hpos0 & _) _].
  exists s'. split_and!; [done|lia|lia|..].
  - intros k' Hk'. rewrite Hget. apply after_set_plain. by left.
  - rewrite Hget. unfold after_set.
    destruct (decide (JS.PROTO ∈ k :: getAllKeys s)) as [Hin|Hout].
    + rewrite decide_True; [done|]. split_and!; [done|lia|done].
    + rewrite (decide_False (P := _ ∧ _)) by (by intros (_ & _ & ?)).
      apply not_elem_of_cons in Hout as [Hne Hout].
      rewrite decide_False by done. by apply get_None.
  - intros k'. unfold getBucketForKey. destruct (hashFunction s') as [n].
    simpl in Hhf. subst n. f_equal. unfold HashFunction.new. f_equal. lia.
  - intros k' i Hin. unfold getBucketForKey.
    rewrite (placed_index s' k' i Hpl' Hin). apply hash_idx, Hwf'.
Qed.

Lemma set_new_key_resizes_witness :
  ∃ s', set proto_store (str "m") (str "x") = Done s'
    ∧ bucketCount s' = 2 * bucketCount proto_store
    ∧ Z.of_nat (length (bs s')) = 2 * bucketCount proto_store
    ∧ (∀ k', k' ≠ JS.PROTO →
         get s' k' = if decide (k' = str "m") then Done (Some (VStr (str "x")))
                     else get proto_store k')
    ∧ get s' JS.PROTO
      = (if decide (JS.PROTO ∈ str "m" :: getAllKeys proto_store)
         then Done (Some VObjectPrototype) else Done None)
    ∧ (∀ k', getBucketForKey s' k'
             = HashFunction.hash (HashFunction.new (2 * bucketCount proto_store)) k')
    ∧ (∀ k' i, key_in_bucket s' k' i → getBucketForKey s' k' = Z.of_nat i).
Proof.
  apply (set_new_key_resizes proto_store (str "m") (str "x")).
  - apply (bool_decide_unpack _). vm_compute. exact I.
  - apply (bool_decide_unpack _). vm_compute. exact I.
  - vm_compute. reflexivity.
Defined.

(** X17. Doubling the bucket count sends a key either to the bucket it
    was in or to the one [n] places further: its index under [2 * n]
    buckets is its index under [n] buckets, or that index plus [n]. *)
Theorem hash_after_doubling (k : jsstring) (n : Z) :
  0 < n →
  HashFunction.hash (HashFunction.new (2 * n)) k = HashFunction.hash (HashFunction.new n) k
  ∨ HashFunction.hash (HashFunction.new (2 * n)) k
    = HashFunction.hash (HashFunction.new n) k + n.
Proof.
  intros Hn. unfold HashFunction.hash. simpl.
  set (a := Z.abs (foldl HashFunction.hash_step 0 k)).
  assert (0 ≤ a) as Ha by (unfold a; lia).
  rewrite !Z.rem_mod_nonneg by lia.
  pose proof (Z.mod_pos_bound a (2 * n)). pose proof (Z.mod_pos_bound a n).
  pose proof (Z.div_mod a (2 * n)). pose proof (Z.div_mod a n).
  assert (a `mod` (2 * n) - a `mod` n = n * (a `div` n - 2 * (a `div` (2 * n)))) as Hd by lia.
  assert (a `div` n - 2 * (a `div` (2 * n)) = 0 ∨ a `div` n - 2 * (a `div` (2 * n)) = 1)
    as [Hsame|Hnext] by nia.
  - left. rewrite Hsame in Hd. lia.
  - right. rewrite Hnext in Hd. lia.
Qed.

Lemma hash_after_doubling_witness :
  HashFunction.hash (HashFunction.new (2 * 16)) (str "age")
  = HashFunction.hash (HashFunction.new 16) (str "age")
  ∨ HashFunction.hash (HashFunction.new (2 * 16)) (str "age")
    = HashFunction.hash (HashFunction.new 16) (str "age") + 16.
Proof. apply (hash_after_doubling (str "age") 16). lia. Defined.

(** *** Starting from a file *)

Lemma last_value_cons e es k :
  last_value (e :: es) k
  = match last_value es k with
    | Some v => Some v
    | None => if decide (key e = k) then Some (value e) else None
    end.
Proof.
  unfold last_value. rewrite filter_cons. destruct (decide (key e = k)) as [Hk|Hk].
  - rewrite last_cons. by destruct (last (filter _ es)).
  - by destruct (last (filter _ es)).
Qed.

Lemma load_run es s :
  in_sync s →
  ∃ s', for_each (λ this e, setWithoutSave this (key e) (value e)) es s = Done s'
        ∧ in_sync s' ∧ (placed s → placed s')
        ∧ bucketCount s' = bucketCount s
        ∧ diskPersistence s' = diskPersistence s
        ∧ ∀ k, get s' k = match last_value es k with
                          | Some v => Done (Some v)
                          | None => get s k
                          end.
Proof.
  revert s. induction es as [|e es IH]; intros s Hs.
  - exists s. rewrite for_each_nil. by split_and!.
  - destruct (operations s (key e) Hs) as (b & Hb & _ & _ & Hset & _).
    set (s1 := with_buckets s
                 (<[idx s (key e) := BucketManager.set_loop b (key e) (value e)]> (bs s))).
    assert (in_sync s1) as Hs1
      by (apply in_sync_with_buckets; [done|apply length_insert]).
    destruct (IH s1 Hs1) as (s' & Hrun & Hs' & Hpl' & Hbc & Hdisk & Hget).
    exists s'. rewrite for_each_cons, Hset. split_and!; try done.
    + intros Hpl. apply Hpl', placed_insert; [done|].
      apply bucket_ok_set_loop; [by apply Hpl|by apply hash_idx].
    + intros k. rewrite Hget, last_value_cons. unfold s1.
      rewrite setWithoutSave_get by done.
      destruct (last_value es k); [done|].
      destruct (decide (k = key e)) as [->|Hne].
      * by rewrite decide_True.
      * by rewrite decide_False.
Qed.

Lemma new_reads (disk : DiskPersistence.t) :
  ∃ s, new disk = Done s
    ∧ bucketCount s = 16
    ∧ well_formed s
    ∧ diskPersistence s = disk
    ∧ ∀ k, get s k = Done (last_value (DiskPersistence.load disk) k).
Proof.
  unfold new, loadFromDisk. cbv zeta.
  destruct (fresh_table 16 disk) as [[Hs0 Hpl0] Hget0]; [lia|].
  destruct (load_run (DiskPersistence.load disk) _ Hs0)
    as (s & Hrun & Hs & Hpl & Hbc & Hdisk & Hget).
  exists s. split_and!; [done|done|split; [done|by apply Hpl]|done|].
  intros k. rewrite Hget, Hget0. by destruct (last_value _ k).
Qed.

(** X18. The constructor never throws, never writes and never resizes:
    whatever the file holds, the new store has 16 buckets, is well formed,
    and leaves the file as it found it; every key reads as the value of the
    last line of the file that has this key, and as [undefined] when no
    line has it. *)
Theorem new_store_from_file (disk : DiskPersistence.t) :
  ∃ s, new disk = Done s
    ∧ bucketCount s = 16
    ∧ well_formed s
    ∧ diskPersistence s = disk
    ∧ (∀ k, get s k = Done (last_value (DiskPersistence.load disk) k))
    ∧ (DiskPersistence.file disk = None → getAllKeys s = []).
Proof.
  destruct (new_reads disk) as (s & Hnew & Hbc & Hwf & Hdisk & Hget).
  exists s. split_and!; try done.
  intros Hfile. apply elem_of_nil_inv. intros k.
  apply (get_None s k Hwf). rewrite Hget.
  unfold DiskPersistence.load, DiskPersistence.readFile. by rewrite Hfile.
Qed.

Lemma new_store_from_file_witness :
  ∃ s, new (DiskPersistence.new None) = Done s
    ∧ bucketCount s = 16
    ∧ well_formed s
    ∧ diskPersistence s = DiskPersistence.new None
    ∧ (∀ k, get s k
            = Done (last_value (DiskPersistence.load (DiskPersistence.new None)) k))
    ∧ (DiskPersistence.file (DiskPersistence.new None) = None → getAllKeys s = []).
Proof. apply (new_store_from_file (DiskPersistence.new None)). Defined.

Lemma last_value_functional (es : list entry) k (v : jsvalue) :
  (∀ e1 e2, e1 ∈ es → e2 ∈ es → key e1 = key e2 → e1 = e2) →
  last_value es k = Some v ↔ Entry k v ∈ es.
Proof.
  intros Hfun. unfold last_value. split.
  - destruct (last (filter (λ e, key e = k) es)) as [e|] eqn:Hlast; [|done].
    intros [= <-]. apply last_Some_elem_of, list_elem_of_filter in Hlast as [<- He].
    by destruct e.
  - intros Hin.
    destruct (last (filter (λ e, key e = k) es)) as [e|] eqn:Hlast.
    + apply last_Some_elem_of, list_elem_of_filter in Hlast as [Hk He].
      by rewrite (Hfun e (Entry k v) He Hin Hk).
    + apply last_None in Hlast.
      assert (Entry k v ∈ filter (λ e, key e = k) es) as H
        by by apply list_elem_of_filter.
      rewrite Hlast in H. by apply elem_of_nil in H.
Qed.

(** X19. A store comes back from its own file: when every entry of a
    well-formed store is storable (the key not empty, without a colon,
    not beginning with white space; the value a string not ending with
    white space; neither with an unpaired surrogate), the store that the
    constructor makes from the file this store has saved reads every key
    as this store does.  It has 16 buckets, however many this store had. *)
Theorem restart_round_trip s :
  well_formed s →
  Forall storable (BucketManager.entries (bucketManager s)) →
  ∃ s', new (diskPersistence (saveToDisk s)) = Done s'
    ∧ (∀ k, get s' k = get s k)
    ∧ bucketCount s' = 16.
Proof.
  intros Hwf Hall.
  destruct (new_reads (diskPersistence (saveToDisk s)))
    as (s' & Hnew & Hbc & _ & _ & Hget).
  exists s'. split_and!; [done| |done].
  intros k. rewrite Hget. unfold DiskPersistence.load, DiskPersistence.readFile. simpl.
  unfold BucketManager.getAllBuckets.
  rewrite content_well_formed, parse_content by done.
  destruct (operations s k (proj1 Hwf)) as (b & _ & _ & Hgetk & _).
  rewrite Hgetk. f_equal. apply option_eq. intros v.
  rewrite last_value_functional by (intros e1 e2; apply entries_functional, Hwf).
  rewrite <- (get_entry s k v Hwf), Hgetk. split; congruence.
Qed.

Lemma restart_round_trip_witness :
  ∃ s', new (diskPersistence (saveToDisk users_store)) = Done s'
    ∧ (∀ k, get s' k = get users_store k)
    ∧ bucketCount s' = 16.
Proof.
  apply (restart_round_trip users_store);
    apply (bool_decide_unpack _); vm_compute; exact I.
Defined.

(** *** Keys by prefix *)

Lemma prefix_loop_prefix k p : prefix_loop k p = true ↔ p `prefix_of` k.
Proof.
  revert k. induction p as [|x p IH]; intros k; simpl.
  - split; [intros _; apply prefix_nil|done].
  - destruct k as [|c k].
    + split; [done|]. intros H%prefix_length. simpl in H. lia.
    + destruct (decide (c = x)) as [->|Hne].
      * rewrite IH. split; [apply prefix_cons|apply prefix_cons_inv_2].
      * split; [done|]. intros H%prefix_cons_inv_1. congruence.
Qed.

Lemma matches_prefix_prefix k p : matches_prefix k p = true ↔ p `prefix_of` k.
Proof.
  unfold matches_prefix. destruct (decide (length k < length p)%nat) as [Hlt|_].
  - split; [done|]. intros H%prefix_length. lia.
  - apply prefix_loop_prefix.
Qed.

Lemma matching_fold p (ks acc : list jsstring) :
  foldl (λ matchingKeys k,
           if matches_prefix k p then matchingKeys ++ [k] else matchingKeys) acc ks
  = acc ++ filter (λ k, p `prefix_of` k) ks.
Proof.
  revert acc. induction ks as [|k ks IH]; intros acc; simpl.
  - by rewrite app_nil_r.
  - rewrite IH, filter_cons. destruct (matches_prefix k p) eqn:Hm.
    + apply matches_prefix_prefix in Hm. rewrite decide_True by done.
      by rewrite <- app_assoc.
    + rewrite decide_False; [done|]. intros H%matches_prefix_prefix. congruence.
Qed.

Lemma getKeysByPrefix_is_filter s p :
  getKeysByPrefix s p = filter (λ k, p `prefix_of` k) (getAllKeys s).
Proof. unfold getKeysByPrefix. cbv zeta. apply matching_fold. Qed.

(** X20. [getKeysByPrefix(prefix)] returns exactly the keys of the table
    that begin with the prefix, each once, in the order of [getAllKeys()];
    with the empty prefix it returns all the keys. *)
Theorem getKeysByPrefix_selects s p :
  getKeysByPrefix s p = filter (λ k, p `prefix_of` k) (getAllKeys s)
  ∧ (∀ k, k ∈ getKeysByPrefix s p ↔ k ∈ getAllKeys s ∧ ∃ rest, k = p ++ rest)
  ∧ getKeysByPrefix s [] = getAllKeys s.
Proof.
  split_and!.
  - apply getKeysByPrefix_is_filter.
  - intros k. rewrite getKeysByPrefix_is_filter, list_elem_of_filter.
    unfold prefix. tauto.
  - rewrite getKeysByPrefix_is_filter.
    induction (getAllKeys s) as [|k ks IH]; [done|].
    rewrite filter_cons, decide_True by apply prefix_nil. by rewrite IH.
Qed.

(** *** The data of one user *)

Lemma or_empty_Some (v : jsvalue) : or_empty (Some v) = v.
Proof. by destruct v as [[|c rest]|]. Qed.

Lemma get_stored s k : well_formed s → get s k = Done (stored s k).
Proof.
  intros [Hs _]. unfold stored.
  by destruct (operations s k Hs) as (b & _ & _ & -> & _).
Qed.

Lemma user_fields_run s (q : jsstring) (ks : list jsstring)
    (data0 : gmap jsstring jsvalue) :
  well_formed s →
  Forall (λ k, q `prefix_of` k) ks →
  ∃ data,
    for_each (λ data fullKey,
                x ← get s fullKey;
                mret (JS.obj_set data (drop (length q) fullKey) (or_empty x))) ks data0
    = Done data
    ∧ data !! JS.PROTO = data0 !! JS.PROTO
    ∧ ∀ f, f ≠ JS.PROTO →
        data !! f
        = if decide (q ++ f ∈ ks) then Some (or_empty (stored s (q ++ f)))
          else data0 !! f.
Proof.
  intros Hwf Hall. revert data0. induction Hall as [|k ks [r ->] _ IH]; intros data0.
  - exists data0. rewrite for_each_nil. split_and!; [done|done|]. intros f _.
    rewrite decide_False; [done|apply not_elem_of_nil].
  - rewrite for_each_cons, (get_stored s (q ++ r) Hwf). simpl.
    rewrite drop_app_length.
    destruct (IH (JS.obj_set data0 r (or_empty (stored s (q ++ r)))))
      as (data & Hrun & Hproto & Hdata).
    exists data. split_and!; [done| |].
    + rewrite Hproto. unfold JS.obj_set.
      destruct (decide (r = JS.PROTO)) as [|Hr]; [done|]. by rewrite lookup_insert_ne.
    + intros f Hf. rewrite (Hdata f Hf).
      destruct (decide (q ++ f ∈ ks)) as [Hin|Hnotin].
      * rewrite decide_True; [done|]. by right.
      * unfold JS.obj_set. destruct (decide (r = f)) as [->|Hne].
        -- rewrite decide_False by done.
           rewrite lookup_insert_eq, decide_True; [done|]. by left.
        -- rewrite (decide_False (P := q ++ f ∈ _)).
           2:{ intros [Heq|?]%elem_of_cons; [|done]. by apply app_inv_head in Heq. }
           destruct (decide (r = JS.PROTO)); [done|]. by rewrite lookup_insert_ne.
Qed.

(** X21. [getUserData(p)] collects the keys that begin with [p] followed
    by an underscore: on a well-formed store it does not throw, and for
    every field name [f] other than ["__proto__"] its result has the own
    property [f] exactly when the key [p_f] is in the table, with the
    value stored under that key.  The result never has an own property
    ["__proto__"], also when the key [p___proto__] is in the table.  A
    key that merely begins with [p], without the underscore next,
    contributes nothing. *)
Theorem getUserData_fields s p :
  well_formed s →
  ∃ data, getUserData s p = Done data
    ∧ data !! JS.PROTO = None
    ∧ ∀ f, f ≠ JS.PROTO → get s (p ++ [UNDERSCORE] ++ f) = Done (data !! f).
Proof.
  intros Hwf. unfold getUserData. cbv zeta. unfold JS.substring_from.
  replace (Z.to_nat (Z.of_nat (length p) + 1)) with (length (p ++ [UNDERSCORE]))
    by (rewrite length_app; simpl; lia).
  destruct (user_fields_run s (p ++ [UNDERSCORE])
              (getKeysByPrefix s (p ++ [UNDERSCORE])) ∅ Hwf)
    as (data & Hrun & Hproto & Hdata).
  { rewrite getKeysByPrefix_is_filter. apply Forall_forall.
    by intros k [? _]%list_elem_of_filter. }
  exists data. split_and!; [done|by rewrite Hproto|]. intros f Hf.
  rewrite (Hdata f Hf), lookup_empty, app_assoc.
  rewrite (get_stored s _ Hwf). f_equal.
  destruct (decide _) as [Hin|Hnotin].
  - rewrite getKeysByPrefix_is_filter in Hin.
    apply list_elem_of_filter in Hin as [_ Hin].
    apply (mem_of_get s _ Hwf) in Hin. rewrite (get_stored s _ Hwf) in Hin.
    destruct (stored s _) as [v|]; [|done]. by rewrite or_empty_Some.
  - destruct (stored s _) as [v|] eqn:Hv; [|done].
    destruct Hnotin. rewrite getKeysByPrefix_is_filter.
    apply list_elem_of_filter. split; [by eexists|].
    apply (mem_of_get s _ Hwf). by rewrite (get_stored s _ Hwf), Hv.
Qed.

Lemma getUserData_fields_witness :
  ∃ data, getUserData users_store (str "user1") = Done data
    ∧ data !! JS.PROTO = None
    ∧ ∀ f, f ≠ JS.PROTO →
        get users_store (str "user1" ++ [UNDERSCORE] ++ f) = Done (data !! f).
Proof.
  apply (getUserData_fields users_store (str "user1")).
  apply (bool_decide_unpack _). vm_compute. exact I.
Defined.

(** *** The picture of the buckets *)

Lemma view_loop_acc (b : list entry) (m : gmap jsstring jsvalue) (n : Z) :
  foldl (λ '(items, itemCount) e,
           (JS.obj_set items (key e) (value e), itemCount + 1)) (m, n) b
  = (foldl (λ result e, JS.obj_set result (key e) (value e)) m b,
     n + Z.of_nat (length b)).
Proof.
  revert m n. induction b as [|e b IH]; intros m n; simpl.
  - f_equal. lia.
  - rewrite IH. f_equal. lia.
Qed.

Lemma view_loop_eq (b : list entry) :
  BucketManager.view_loop b
  = (foldl (λ result e, JS.obj_set result (key e) (value e)) ∅ b,
     Z.of_nat (length b)).
Proof. unfold BucketManager.view_loop. by rewrite view_loop_acc. Qed.

Lemma getBucketStructure_lookup (bm : BucketManager.t) i b :
  BucketManager.buckets bm !! i = Some b →
  BucketManager.getBucketStructure bm !! i
  = Some {| BucketManager.bucketIndex := Z.of_nat i;
            BucketManager.items :=
              foldl (λ result e, JS.obj_set result (key e) (value e)) ∅ b;
            BucketManager.itemCount := Z.of_nat (length b) |}.
Proof.
  intros Hb. unfold BucketManager.getBucketStructure.
  rewrite list_lookup_imap, Hb. simpl. by rewrite view_loop_eq.
Qed.

Lemma items_lookup (b : list entry) k :
  NoDup (key <$> b) → k ≠ JS.PROTO →
  foldl (λ result e, JS.obj_set result (key e) (value e))
    (∅ : gmap jsstring jsvalue) b !! k
  = BucketManager.get_loop b k.
Proof.
  intros Hnd Hk. apply option_eq. intros x.
  rewrite getAll_fold_lookup by (done || intros e1 e2; by apply unique_key).
  by rewrite get_loop_Some.
Qed.

Lemma distribution_fold (l : list (list entry)) :
  ∃ hd : gmap Z Z,
    foldl (λ '(hashDistribution, totalItems) bucket,
             (<[BucketManager.bucketIndex bucket := BucketManager.itemCount bucket]>
                hashDistribution,
              totalItems + BucketManager.itemCount bucket))
          (∅, 0)
          (BucketManager.getBucketStructure
             {| BucketManager.buckets := l; BucketManager.bucketCount := 0 |})
    = (hd, Z.of_nat (length (mjoin l)))
    ∧ ∀ j : nat, hd !! Z.of_nat j = (λ b, Z.of_nat (length b)) <$> l !! j.
Proof.
  unfold BucketManager.getBucketStructure. simpl.
  induction l as [|b l (hd & Hfold & Hhd)] using rev_ind.
  - exists ∅. split; [done|]. intros j. by rewrite lookup_empty.
  - rewrite imap_app, foldl_app, Hfold. simpl. rewrite view_loop_eq. simpl.
    eexists. split.
    + f_equal. rewrite join_app, length_app. simpl. rewrite app_nil_r. lia.
    + intros j. replace (length l + 0)%nat with (length l) by lia.
      destruct (decide (j = length l)) as [->|Hne].
      * rewrite lookup_insert_eq, list_lookup_middle by done. done.
      * rewrite lookup_insert_ne by lia. rewrite Hhd.
        destruct (decide (j < length l)%nat).
        -- by rewrite lookup_app_l.
        -- rewrite !lookup_ge_None_2; [done|rewrite length_app; simpl; lia|lia].
Qed.

(** X22. [visualizeBuckets()] reports the bucket count, as many items as
    [getAllKeys()] has keys, and one view for each bucket, in order: the
    view of bucket [i] has index [i] and the number of entries of the
    bucket, which is also what [hashDistribution] holds for [i]; when the
    bucket holds no key twice, its [items] have, for every key other than
    ["__proto__"], the own property that [getFromBucket] reads; they
    never have an own property ["__proto__"], so that an entry with this
    key is counted and not shown. *)
Theorem visualizeBuckets_report s :
  totalBuckets (visualizeBuckets s) = bucketCount s
  ∧ totalItems (visualizeBuckets s) = Z.of_nat (length (getAllKeys s))
  ∧ length (structure (visualizeBuckets s)) = length (bs s)
  ∧ ∀ i b, bs s !! i = Some b →
      hashDistribution (visualizeBuckets s) !! Z.of_nat i = Some (Z.of_nat (length b))
      ∧ ∃ view, structure (visualizeBuckets s) !! i = Some view
          ∧ BucketManager.bucketIndex view = Z.of_nat i
          ∧ BucketManager.itemCount view = Z.of_nat (length b)
          ∧ BucketManager.items view !! JS.PROTO = None
          ∧ (NoDup (key <$> b) →
               ∀ k, k ≠ JS.PROTO →
                 BucketManager.items view !! k = BucketManager.get_loop b k).
Proof.
  destruct (distribution_fold (bs s)) as (hd & Hfold & Hhd).
  assert (BucketManager.getBucketStructure
            {| BucketManager.buckets := bs s; BucketManager.bucketCount := 0 |}
          = BucketManager.getBucketStructure (bucketManager s)) as Hsame by done.
  rewrite Hsame in Hfold. unfold visualizeBuckets. cbv zeta. rewrite Hfold. simpl.
  split_and!; [done| | |].
  - unfold getAllKeys, BucketManager.getAllKeys, BucketManager.entries.
    by rewrite length_fmap.
  - unfold BucketManager.getBucketStructure. apply length_imap.
  - intros i b Hb. split; [by rewrite Hhd, Hb|].
    eexists. split; [by apply getBucketStructure_lookup|]. simpl.
    split_and!; [done|done|apply getAll_fold_proto|].
    intros Hnd k Hk. by apply items_lookup.
Qed.

Lemma visualizeBuckets_report_witness :
  hashDistribution (visualizeBuckets sample_store) !! Z.of_nat 11 = Some (Z.of_nat 1)
  ∧ totalItems (visualizeBuckets sample_store) = 2.
Proof.
  pose proof (visualizeBuckets_report sample_store) as (_ & Htotal & _ & Hview).
  split.
  - apply (Hview 11%nat [Entry (str "name") (VStr (str "John"))]). reflexivity.
  - rewrite Htotal. reflexivity.
Defined.

End MoreStore.

(** ** The handlers *)

Section Handlers.
Import HashMapStore.

Implicit Types (store : HashMapStore.t) (k : jsstring).

(** X23. [POST /keys] on a well-formed store: a missing or empty key, or
    a missing value, is answered 400 and a key that is in the table 409,
    the store being left as it was; any other request is answered 201,
    the store is the one [set] gives, and the key then reads as the value
    sent, with one exception: the key ["__proto__"] reads as
    [Object.prototype] when the write doubled the bucket count.  So the
    handler never answers 500, never overwrites, and never puts the empty
    key in the table. *)
Theorem create_answers store (k v : option jsstring) :
  well_formed store →
  (KeysController.falsy k = true ∨ v = None →
     ∃ res, KeysController.create store k v = (res, Done store)
            ∧ KeysController.status res = 400)
  ∧ (∀ k' v', k = Some k' → v = Some v' → k' ≠ [] →
       (k' ∈ getAllKeys store →
          ∃ res, KeysController.create store k v = (res, Done store)
                 ∧ KeysController.status res = 409)
       ∧ (k' ∉ getAllKeys store →
          ∃ res store',
            KeysController.create store k v = (res, Done store')
            ∧ KeysController.status res = 201
            ∧ set store k' v' = Done store'
            ∧ (k' ≠ JS.PROTO ∨ bucketCount store' = bucketCount store →
                 get store' k' = Done (Some (VStr v')))
            ∧ (k' = JS.PROTO → bucketCount store' ≠ bucketCount store →
                 get store' k' = Done (Some VObjectPrototype))
            ∧ ([] ∉ getAllKeys store → [] ∉ getAllKeys store'))).
Proof.
  intros Hwf. split.
  - intros Hbad. unfold KeysController.create.
    destruct k as [k'|], v as [v'|]; simpl; try by eexists.
    destruct Hbad as [Hk|?]; [|done]. simpl in Hk. rewrite Hk. by eexists.
  - intros k' v' -> -> Hne. unfold KeysController.create.
    assert (KeysController.falsy (Some k') = false) as -> by by destruct k'.
    rewrite (has_getAllKeys store k' Hwf). simpl. split; intros Hk.
    + rewrite bool_decide_eq_true_2 by done. by eexists.
    + rewrite bool_decide_eq_false_2 by done.
      destruct (set_spec store k' v' Hwf) as (store' & Hset & Hwf' & _ & Hget & _).
      destruct (set_keys store k' v' store' Hwf Hset) as [_ Hmem].
      rewrite Hset. simpl. eexists _, store'. split_and!; try done.
      * intros H. rewrite Hget, after_set_plain by done. by rewrite decide_True.
      * intros Hp Hgrown. rewrite Hget. unfold after_set.
        rewrite decide_True; [done|]. split_and!; [done|done|by left].
      * intros Hempty [?|?]%Hmem; [by subst k'|done].
Qed.

Lemma create_answers_witness :
  (∃ res, KeysController.create sample_store (Some []) (Some (str "v"))
          = (res, Done sample_store)
          ∧ KeysController.status res = 400)
  ∧ (∃ res, KeysController.create sample_store (Some (str "age")) (Some (str "30"))
            = (res, Done sample_store)
            ∧ KeysController.status res = 409)
  ∧ (∃ res store',
       KeysController.create sample_store (Some (str "city")) (Some (str "Paris"))
       = (res, Done store')
       ∧ KeysController.status res = 201
       ∧ set sample_store (str "city") (str "Paris") = Done store'
       ∧ (str "city" ≠ JS.PROTO ∨ bucketCount store' = bucketCount sample_store →
            get store' (str "city") = Done (Some (VStr (str "Paris"))))
       ∧ (str "city" = JS.PROTO → bucketCount store' ≠ bucketCount sample_store →
            get store' (str "city") = Done (Some VObjectPrototype))
       ∧ ([] ∉ getAllKeys sample_store → [] ∉ getAllKeys store')).
Proof.
  assert (well_formed sample_store) as Hwf
    by (apply (bool_decide_unpack _); vm_compute; exact I).
  split_and!.
  - apply (proj1 (create_answers sample_store (Some []) (Some (str "v")) Hwf)).
    left. reflexivity.
  - apply (proj2 (create_answers sample_store (Some (str "age")) (Some (str "30")) Hwf)
             (str "age") (str "30")); [reflexivity|reflexivity|discriminate|].
    apply (bool_decide_unpack _). vm_compute. exact I.
  - apply (proj2 (create_answers sample_store (Some (str "city")) (Some (str "Paris")) Hwf)
             (str "city") (str "Paris")); [reflexivity|reflexivity|discriminate|].
    apply (bool_decide_unpack _). vm_compute. exact I.
Defined.



End Handlers.

(** ** Where a key goes *)

Section Placement.
Import HashMapStore.

(** X25. [getBucketForKey(k)] is the bucket [set] puts [k] in: after
    [set(k, v)] on a well-formed store the key is in the bucket whose index
    [getBucketForKey(k)] then gives, and in no other; when the [set] did not
    resize, that is the index [getBucketForKey(k)] gave before the call,
    whether or not the key was in the table. *)
Theorem getBucketForKey_is_where_set_puts s k v :
  well_formed s →
  ∃ s', set s k v = Done s'
    ∧ key_in_bucket s' k (Z.to_nat (getBucketForKey s' k))
    ∧ (∀ i, key_in_bucket s' k i → Z.of_nat i = getBucketForKey s' k)
    ∧ (bucketCount s' = bucketCount s → getBucketForKey s' k = getBucketForKey s k).
Proof.
  intros Hwf. destruct (set_spec s k v Hwf) as (s' & Hset & Hwf' & _).
  destruct (set_keys s k v s' Hwf Hset) as [_ Hmem].
  assert (k ∈ getAllKeys s') as Hk by (apply Hmem; by left).
  apply elem_of_getAllKeys in Hk as [i Hi].
  pose proof (placed_index s' k i (proj2 Hwf') Hi) as Hidx.
  exists s'. split_and!; [done| | |].
  - unfold getBucketForKey. by rewrite <- Hidx.
  - intros j Hj. unfold getBucketForKey.
    rewrite (placed_index s' k j (proj2 Hwf') Hj). symmetry. apply hash_idx, Hwf'.
  - intros Hbc. unfold getBucketForKey.
    destruct Hwf as [(_ & Hhf & _) _]. destruct Hwf' as [(_ & Hhf' & _) _].
    destruct (hashFunction s) as [n], (hashFunction s') as [n'].
    simpl in *. congruence.
Qed.

Lemma getBucketForKey_is_where_set_puts_witness :
  ∃ s', set sample_store (str "city") (str "Paris") = Done s'
    ∧ key_in_bucket s' (str "city") (Z.to_nat (getBucketForKey s' (str "city")))
    ∧ (∀ i, key_in_bucket s' (str "city") i
            → Z.of_nat i = getBucketForKey s' (str "city"))
    ∧ (bucketCount s' = bucketCount sample_store
       → getBucketForKey s' (str "city") = getBucketForKey sample_store (str "city")).
Proof.
  apply (getBucketForKey_is_where_set_puts sample_store (str "city") (str "Paris")).
  apply (bool_decide_unpack _). vm_compute. exact I.
Defined.

End Placement.
